(** * advanced-vector: a shallow embedding of [RawMemory<T>] and [Vector<T>]

    The development follows [vector.h].  Raw storage is a block of slots,
    each either uninitialised ([Raw]) or holding a constructed object
    ([Obj x]); a [RawMemory] owns such a block (copying is deleted in the
    source, so a block has exactly one owner and travels with it), and a
    [Vector] owns a [RawMemory] plus the number of constructed elements.

    Element operations of the generic type [T] (constructors, assignments)
    may throw; they are the fields of the class [Element].  Every method
    yields an [outcome]: it returns, it exits by an exception, or it has
    undefined behaviour (a violated precondition or assertion).

    [operator new] is taken to succeed; sizes are unbounded naturals. *)

From stdpp Require Import gmap list.

Set Default Proof Using "Type*".

(** ** Outcomes of a call *)

Inductive outcome (S R : Type) : Type :=
  | Returned (s : S) (r : R)   (* normal return, final state and result *)
  | Thrown (s : S)             (* an exception leaves the call, state at that point *)
  | Undefined.                 (* undefined behaviour *)
Arguments Returned {S R} s r.
Arguments Thrown {S R} s.
Arguments Undefined {S R}.

(** ** The element type *)

(** Result of an assignment [d = s]: the operands afterwards, and whether
    the operator threw. *)
Inductive assigned (A : Type) : Type :=
  | Assigned (a : A)
  | AssignThrows (a : A).
Arguments Assigned {A} a.
Arguments AssignThrows {A} a.

Class Element (T Args : Type) : Type := {
  (* T(std::forward<Args>(args)...) *)
  construct : Args → option T;
  (* T() *)
  value_construct : option T;
  (* T(const T&) *)
  copy_construct : T → option T;
  (* T(T&&): the new object unless it throws, and what is left in the source *)
  move_construct : T → option T * T;
  (* d = s: the new d *)
  copy_assign : T → T → assigned T;
  (* d = std::move(s): the new d and what is left in s *)
  move_assign : T → T → assigned (T * T);
  is_nothrow_move_constructible : bool;
  is_copy_constructible : bool
}.

(** A slot of raw storage. *)
Inductive slot (T : Type) : Type :=
  | Raw
  | Obj (x : T).
Arguments Raw {T}.
Arguments Obj {T} x.

(** [T*]: a block (or none, for [nullptr]) and an offset in it. *)
Record pointer : Type := { block_of : option nat; offset : nat }.

Global Instance pointer_eq_dec : EqDecision pointer.
Proof. solve_decision. Defined.

Definition ptr_add (p : pointer) (n : nat) : pointer :=
  {| block_of := block_of p; offset := offset p + n |}.

(* p - 1 *)
Definition ptr_pred (p : pointer) : option pointer :=
  match offset p with
  | 0 => None
  | S k => Some {| block_of := block_of p; offset := k |}
  end.

(* std::distance(p, q) as a size_t *)
Definition distance (p q : pointer) : option nat :=
  if decide (block_of p = block_of q) then
    if offset p <=? offset q then Some (offset q - offset p) else None
  else None.

Section Model.
Context {T Args : Type} `{E : Element T Args}.

(** The arguments [Emplace]/[EmplaceBack]/[PushBack]/[Insert] forward to
    the constructor of [T]. *)
Inductive ctor_args : Type :=
  | by_copy (x : T)      (* const T& *)
  | by_move (x : T)      (* T&& *)
  | by_args (a : Args).  (* anything else *)

Definition construct_from (args : ctor_args) : option T :=
  match args with
  | by_copy x => copy_construct x
  | by_move x => fst (move_construct x)
  | by_args a => construct a
  end.

(* std::is_nothrow_move_constructible_v<T> || !std::is_copy_constructible_v<T> *)
Definition relocate : bool :=
  is_nothrow_move_constructible || negb is_copy_constructible.

(** ** Operations on the slots of a block *)

(* new (p) T(x) *)
Definition construct_at (cs : list (slot T)) (i : nat) (x : T) : option (list (slot T)) :=
  if i <? length cs then Some (<[i := Obj x]> cs) else None.

(* std::destroy_at(p) *)
Definition std_destroy_at (cs : list (slot T)) (i : nat) : option (list (slot T)) :=
  match cs !! i with
  | Some (Obj _) => Some (<[i := Raw]> cs)
  | _ => None
  end.

(* std::destroy_n(first, n) *)
Fixpoint std_destroy_n (cs : list (slot T)) (first n : nat) : option (list (slot T)) :=
  match n with
  | 0 => Some cs
  | S n' =>
    match std_destroy_at cs first with
    | Some cs' => std_destroy_n cs' (S first) n'
    | None => None
    end
  end.

(* std::destroy(first, last) *)
Definition std_destroy (cs : list (slot T)) (first last : nat) : option (list (slot T)) :=
  if last <? first then None else std_destroy_n cs first (last - first).

(* std::uninitialized_value_construct_n(first, n) *)
Fixpoint std_uninitialized_value_construct_n (cs : list (slot T)) (first n : nat)
  : outcome (list (slot T)) unit :=
  match n with
  | 0 => Returned cs tt
  | S n' =>
    match value_construct with
    | Some y =>
      if first <? length cs then
        match std_uninitialized_value_construct_n (<[first := Obj y]> cs) (S first) n' with
        | Returned cs' r => Returned cs' r
        | Thrown cs' => Thrown (<[first := Raw]> cs')
        | Undefined => Undefined
        end
      else Undefined
    | None => Thrown cs
    end
  end.

(* std::uninitialized_copy_n(first, n, d_first), source and destination
   in different blocks; on a throw the copies already made are destroyed *)
Fixpoint std_uninitialized_copy_n (src : list (slot T)) (first n : nat)
    (dst : list (slot T)) (d_first : nat) : outcome (list (slot T)) unit :=
  match n with
  | 0 => Returned dst tt
  | S n' =>
    match src !! first with
    | Some (Obj x) =>
      match copy_construct x with
      | Some y =>
        if d_first <? length dst then
          match std_uninitialized_copy_n src (S first) n' (<[d_first := Obj y]> dst) (S d_first) with
          | Returned d r => Returned d r
          | Thrown d => Thrown (<[d_first := Raw]> d)
          | Undefined => Undefined
          end
        else Undefined
      | None => Thrown dst
      end
    | _ => Undefined
    end
  end.

(* std::uninitialized_copy(first, last, d_first) *)
Definition std_uninitialized_copy (src : list (slot T)) (first last : nat)
    (dst : list (slot T)) (d_first : nat) : outcome (list (slot T)) unit :=
  if last <? first then Undefined
  else std_uninitialized_copy_n src first (last - first) dst d_first.

(* std::uninitialized_move_n(first, n, d_first): the state is the pair of
   the source and the destination block; on a throw the objects already
   constructed are destroyed, the sources already moved from stay so *)
Fixpoint std_uninitialized_move_n (src : list (slot T)) (first n : nat)
    (dst : list (slot T)) (d_first : nat)
  : outcome (list (slot T) * list (slot T)) unit :=
  match n with
  | 0 => Returned (src, dst) tt
  | S n' =>
    match src !! first with
    | Some (Obj x) =>
      let src' := <[first := Obj (snd (move_construct x))]> src in
      match fst (move_construct x) with
      | Some y =>
        if d_first <? length dst then
          match std_uninitialized_move_n src' (S first) n' (<[d_first := Obj y]> dst) (S d_first) with
          | Returned s r => Returned s r
          | Thrown s => Thrown (fst s, <[d_first := Raw]> (snd s))
          | Undefined => Undefined
          end
        else Undefined
      | None => Thrown (src', dst)
      end
    | _ => Undefined
    end
  end.

(* std::uninitialized_move(first, last, d_first) *)
Definition std_uninitialized_move (src : list (slot T)) (first last : nat)
    (dst : list (slot T)) (d_first : nat)
  : outcome (list (slot T) * list (slot T)) unit :=
  if last <? first then Undefined
  else std_uninitialized_move_n src first (last - first) dst d_first.

(* std::copy_n(first, n, d_first): copy assignment onto live objects of
   another block *)
Fixpoint std_copy_n (src : list (slot T)) (first n : nat)
    (dst : list (slot T)) (d_first : nat) : outcome (list (slot T)) unit :=
  match n with
  | 0 => Returned dst tt
  | S n' =>
    match src !! first, dst !! d_first with
    | Some (Obj s), Some (Obj d) =>
      match copy_assign d s with
      | Assigned d' => std_copy_n src (S first) n' (<[d_first := Obj d']> dst) (S d_first)
      | AssignThrows d' => Thrown (<[d_first := Obj d']> dst)
      end
    | _, _ => Undefined
    end
  end.

(* one move assignment inside a block: slot d = std::move(slot s) *)
Definition move_assign_at (cs : list (slot T)) (d s : nat) : outcome (list (slot T)) unit :=
  match cs !! s, cs !! d with
  | Some (Obj x), Some (Obj t) =>
    match move_assign t x with
    | Assigned (t', x') => Returned (<[d := Obj t']> (<[s := Obj x']> cs)) tt
    | AssignThrows (t', x') => Thrown (<[d := Obj t']> (<[s := Obj x']> cs))
    end
  | _, _ => Undefined
  end.

(* the loop of std::move(first, first + n, d_first), inside one block *)
Fixpoint std_move_n (cs : list (slot T)) (first n d_first : nat)
  : outcome (list (slot T)) unit :=
  match n with
  | 0 => Returned cs tt
  | S n' =>
    match move_assign_at cs d_first first with
    | Returned cs' _ => std_move_n cs' (S first) n' (S d_first)
    | Thrown cs' => Thrown cs'
    | Undefined => Undefined
    end
  end.

(* std::move(first, last, d_first) *)
Definition std_move (cs : list (slot T)) (first last d_first : nat)
  : outcome (list (slot T)) unit :=
  if last <? first then Undefined else std_move_n cs first (last - first) d_first.

(* the loop of std::move_backward(first, first + n, d_last): from the
   last source down to the first, each assigned to the slot before d_last *)
Fixpoint std_move_backward_n (cs : list (slot T)) (first n d_last : nat)
  : outcome (list (slot T)) unit :=
  match n with
  | 0 => Returned cs tt
  | S n' =>
    match d_last with
    | 0 => Undefined
    | S d =>
      match move_assign_at cs d (first + n') with
      | Returned cs' _ => std_move_backward_n cs' first n' d
      | Thrown cs' => Thrown cs'
      | Undefined => Undefined
      end
    end
  end.

(* std::move_backward(first, last, d_last) *)
Definition std_move_backward (cs : list (slot T)) (first last d_last : nat)
  : outcome (list (slot T)) unit :=
  if last <? first then Undefined else std_move_backward_n cs first (last - first) d_last.


(** The repeated [if constexpr] of the source: elements go to the new
    buffer by move construction when [relocate], by copy construction
    otherwise.  The state is the pair (old block, new block). *)
Definition transfer_n (src : list (slot T)) (first n : nat)
    (dst : list (slot T)) (d_first : nat)
  : outcome (list (slot T) * list (slot T)) unit :=
  if relocate then std_uninitialized_move_n src first n dst d_first
  else
    match std_uninitialized_copy_n src first n dst d_first with
    | Returned d r => Returned (src, d) r
    | Thrown d => Thrown (src, d)
    | Undefined => Undefined
    end.

(* the same with the iterator-pair algorithms *)
Definition transfer (src : list (slot T)) (first last : nat)
    (dst : list (slot T)) (d_first : nat)
  : outcome (list (slot T) * list (slot T)) unit :=
  if relocate then std_uninitialized_move src first last dst d_first
  else
    match std_uninitialized_copy src first last dst d_first with
    | Returned d r => Returned (src, d) r
    | Thrown d => Thrown (src, d)
    | Undefined => Undefined
    end.

(** [try { body } catch (...) { handler }] with a handler that does not
    rethrow: control continues after the block in both cases. *)
Definition try_catch_all {S : Type} (body : outcome S unit) (handler : S → option S)
  : option S :=
  match body with
  | Returned s _ => Some s
  | Thrown s => handler s
  | Undefined => None
  end.

(** ** RawMemory *)

Record block : Type := { base : nat; cells : list (slot T) }.

Record RawMemory : Type := { buffer_ : option block; capacity_ : nat }.

(* the slots behind buffer_ *)
Definition slots (m : RawMemory) : list (slot T) :=
  match buffer_ m with
  | Some b => cells b
  | None => []
  end.

Definition with_slots (m : RawMemory) (cs : list (slot T)) : RawMemory :=
  {| buffer_ := (λ b, {| base := base b; cells := cs |}) <$> buffer_ m;
     capacity_ := capacity_ m |}.

(* Allocate: n != 0 ? operator new(n * sizeof(T)) : nullptr.  The state
   is the next unused block address.  This is the run in which the
   request is granted: n * sizeof(T) does not exceed the range of size_t
   and operator new returns a block.  A request that operator new refuses
   exits by std::bad_alloc before the vector is touched, and a product
   that wraps around gives a block of fewer than n slots; the theorems
   about Reserve, Resize and Vector(n), whose n comes from the caller,
   therefore say what holds when the call returns, or however it ends,
   and fix no outcome for a request beyond the capacity. *)
Definition Allocate (n : nat) (a : nat) : nat * option block :=
  if n =? 0 then (a, None)
  else (S a, Some {| base := a; cells := replicate n Raw |}).

(* RawMemory() = default *)
Definition RawMemory_default : RawMemory := {| buffer_ := None; capacity_ := 0 |}.

(* explicit RawMemory(size_t capacity) *)
Definition RawMemory_new (capacity : nat) (a : nat) : nat * RawMemory :=
  (fst (Allocate capacity a),
   {| buffer_ := snd (Allocate capacity a); capacity_ := capacity |}).

(* void Swap(RawMemory& other): the pair is (this, other) afterwards *)
Definition RawMemory_Swap (this other : RawMemory) : RawMemory * RawMemory :=
  ({| buffer_ := buffer_ other; capacity_ := capacity_ other |},
   {| buffer_ := buffer_ this; capacity_ := capacity_ this |}).

Definition GetAddress (m : RawMemory) : pointer :=
  {| block_of := base <$> buffer_ m; offset := 0 |}.

(* operator+: assert(offset <= capacity_) *)
Definition RawMemory_plus (m : RawMemory) (off : nat) : option pointer :=
  if off <=? capacity_ m then Some (ptr_add (GetAddress m) off) else None.

(* operator[]: assert(index < capacity_); the reference is the slot's address *)
Definition RawMemory_index (m : RawMemory) (index : nat) : option pointer :=
  if index <? capacity_ m then Some (ptr_add (GetAddress m) index) else None.

(** ** Vector *)

Record Vector : Type := { data_ : RawMemory; size_ : nat }.

Definition begin (v : Vector) : pointer := GetAddress (data_ v).
Definition end_ (v : Vector) : pointer := ptr_add (GetAddress (data_ v)) (size_ v).
Definition cbegin (v : Vector) : pointer := GetAddress (data_ v).
Definition cend (v : Vector) : pointer := ptr_add (GetAddress (data_ v)) (size_ v).

Definition Size (v : Vector) : nat := size_ v.
Definition Capacity (v : Vector) : nat := capacity_ (data_ v).

(* the vector with the slots of its buffer replaced *)
Definition with_cells (v : Vector) (cs : list (slot T)) : Vector :=
  {| data_ := with_slots (data_ v) cs; size_ := size_ v |}.

(* what a T* into the buffer of v points to *)
Definition deref (v : Vector) (p : pointer) : option T :=
  if decide (block_of p = block_of (begin v)) then
    match slots (data_ v) !! offset p with
    | Some (Obj x) => Some x
    | _ => None
    end
  else None.

(* Vector() = default *)
Definition Vector_default : Vector := {| data_ := RawMemory_default; size_ := 0 |}.

(* explicit Vector(size_t size) *)
Definition Vector_sized (size : nat) (a : nat) : outcome nat Vector :=
  let (a', data) := RawMemory_new size a in
  match std_uninitialized_value_construct_n (slots data) 0 size with
  | Returned cs _ => Returned a' {| data_ := with_slots data cs; size_ := size |}
  | Thrown _ => Thrown a'
  | Undefined => Undefined
  end.

(* Vector(const Vector& other) *)
Definition Vector_copy (other : Vector) (a : nat) : outcome nat Vector :=
  let (a', data) := RawMemory_new (size_ other) a in
  match std_uninitialized_copy_n (slots (data_ other)) 0 (size_ other) (slots data) 0 with
  | Returned cs _ => Returned a' {| data_ := with_slots data cs; size_ := size_ other |}
  | Thrown _ => Thrown a'
  | Undefined => Undefined
  end.

(* void Swap(Vector& other) noexcept: the pair is (this, other) afterwards *)
Definition Swap (this other : Vector) : Vector * Vector :=
  let (d, od) := RawMemory_Swap (data_ this) (data_ other) in
  ({| data_ := d; size_ := size_ other |}, {| data_ := od; size_ := size_ this |}).

(* Vector(Vector&& other) noexcept: the members start from their default
   initialisers and are swapped with those of other *)
Definition Vector_move (other : Vector) : Vector * Vector :=
  let (d, od) := RawMemory_Swap (data_ Vector_default) (data_ other) in
  ({| data_ := d; size_ := size_ other |},
   {| data_ := od; size_ := size_ Vector_default |}).

(* ~Vector(): std::destroy_n(data_.GetAddress(), size_), then ~RawMemory *)
Definition Vector_destroy (v : Vector) : option unit :=
  match std_destroy_n (slots (data_ v)) 0 (size_ v) with
  | Some _ => Some tt
  | None => None
  end.

(* T& operator[](size_t index): assert(index < size_) *)
Definition index_op (v : Vector) (index : nat) : option pointer :=
  if index <? size_ v then RawMemory_index (data_ v) index else None.

Definition Reserve (a : nat) (v : Vector) (new_capacity : nat)
  : outcome (nat * Vector) unit :=
  if new_capacity <=? capacity_ (data_ v) then Returned (a, v) tt
  else
    let (a', new_data) := RawMemory_new new_capacity a in
    match transfer_n (slots (data_ v)) 0 (size_ v) (slots new_data) 0 with
    | Returned (old, new) _ =>
      match std_destroy_n old 0 (size_ v) with
      | Some _ =>
        Returned (a', {| data_ := with_slots new_data new; size_ := size_ v |}) tt
      | None => Undefined
      end
    | Thrown (old, _) => Thrown (a', with_cells v old)
    | Undefined => Undefined
    end.

Definition Resize (a : nat) (v : Vector) (new_size : nat)
  : outcome (nat * Vector) unit :=
  if size_ v <? new_size then
    match Reserve a v new_size with
    | Returned (a', v') _ =>
      match std_uninitialized_value_construct_n (slots (data_ v')) (size_ v')
              (new_size - size_ v') with
      | Returned cs _ =>
        Returned (a', {| data_ := with_slots (data_ v') cs; size_ := new_size |}) tt
      | Thrown cs => Thrown (a', with_cells v' cs)
      | Undefined => Undefined
      end
    | Thrown s => Thrown s
    | Undefined => Undefined
    end
  else if new_size <? size_ v then
    match std_destroy_n (slots (data_ v)) new_size (size_ v - new_size) with
    | Some cs => Returned (a, {| data_ := with_slots (data_ v) cs; size_ := new_size |}) tt
    | None => Undefined
    end
  else Returned (a, v) tt.

(* the reallocating branch shared, word for word, by EmplaceBack and both
   PushBack overloads; it ends after ++size_ *)
Definition append_realloc (a : nat) (v : Vector) (args : ctor_args)
  : outcome (nat * Vector) unit :=
  let new_capacity := if size_ v =? 0 then 1 else size_ v * 2 in
  let (a', new_data) := RawMemory_new new_capacity a in
  match RawMemory_plus new_data (size_ v) with
  | None => Undefined
  | Some p =>
    match construct_from args with
    | None => Thrown (a', v)
    | Some x =>
      match construct_at (slots new_data) (offset p) x with
      | None => Undefined
      | Some new0 =>
        match transfer_n (slots (data_ v)) 0 (size_ v) new0 0 with
        | Returned (old, new) _ =>
          match std_destroy_n old 0 (size_ v) with
          | Some _ =>
            Returned (a', {| data_ := with_slots new_data new; size_ := S (size_ v) |}) tt
          | None => Undefined
          end
        | Thrown (old, _) => Thrown (a', with_cells v old)
        | Undefined => Undefined
        end
      end
    end
  end.

(* the branch with spare capacity: new (data_ + size_) T(...); ++size_ *)
Definition append_in_place (a : nat) (v : Vector) (args : ctor_args)
  : outcome (nat * Vector) unit :=
  match RawMemory_plus (data_ v) (size_ v) with
  | None => Undefined
  | Some p =>
    match construct_from args with
    | None => Thrown (a, v)
    | Some x =>
      match construct_at (slots (data_ v)) (offset p) x with
      | None => Undefined
      | Some cs =>
        Returned (a, {| data_ := with_slots (data_ v) cs; size_ := S (size_ v) |}) tt
      end
    end
  end.

(* T& EmplaceBack(Args&&... args) *)
Definition EmplaceBack (a : nat) (v : Vector) (args : ctor_args)
  : outcome (nat * Vector) pointer :=
  match (if size_ v <? Capacity v then append_in_place a v args
         else append_realloc a v args) with
  | Returned (a', v') _ =>
    (* return *(data_.GetAddress() + size_ - 1) *)
    match ptr_pred (ptr_add (GetAddress (data_ v')) (size_ v')) with
    | Some p => Returned (a', v') p
    | None => Undefined
    end
  | Thrown s => Thrown s
  | Undefined => Undefined
  end.

(* void PushBack(const T& value) *)
Definition PushBack (a : nat) (v : Vector) (value : T)
  : outcome (nat * Vector) unit :=
  if size_ v <? Capacity v then append_in_place a v (by_copy value)
  else append_realloc a v (by_copy value).

(* template <typename U> void PushBack(U&& value): U&& binds an lvalue
   (then T is copy constructed) or an rvalue (then move constructed) *)
Definition PushBack_forward (a : nat) (v : Vector) (value : ctor_args)
  : outcome (nat * Vector) unit :=
  if size_ v <? Capacity v then append_in_place a v value
  else append_realloc a v value.

(* void PopBack() noexcept *)
Definition PopBack (v : Vector) : outcome Vector unit :=
  match size_ v with
  | 0 => Undefined
  | S k =>
    match std_destroy_n (slots (data_ v)) k 1 with
    | Some cs => Returned {| data_ := with_slots (data_ v) cs; size_ := k |} tt
    | None => Undefined
    end
  end.

(* the branch of Emplace with spare capacity *)
Definition emplace_in_place (v : Vector) (index : nat) (args : ctor_args)
  : outcome Vector pointer :=
  (* T inserting_value_tmp = T(std::forward<Args>(args)...) *)
  match construct_from args with
  | None => Thrown v
  | Some tmp =>
    (* new (data_ + size_) T(std::move(data_[size_ - 1])) *)
    match RawMemory_plus (data_ v) (size_ v), size_ v with
    | Some p, S k =>
      match RawMemory_index (data_ v) k with
      | None => Undefined
      | Some q =>
        match slots (data_ v) !! offset q with
        | Some (Obj last) =>
          let cs0 := <[offset q := Obj (snd (move_construct last))]> (slots (data_ v)) in
          match fst (move_construct last) with
          | None => Thrown (with_cells v cs0)
          | Some y =>
            match construct_at cs0 (offset p) y with
            | None => Undefined
            | Some cs1 =>
              (* std::move_backward(begin() + index, begin() + size_ - 1, begin() + size_) *)
              match std_move_backward cs1 index k (size_ v) with
              | Returned cs2 _ =>
                (* data_[index] = std::move(inserting_value_tmp) *)
                match RawMemory_index (data_ v) index with
                | None => Undefined
                | Some r =>
                  match cs2 !! offset r with
                  | Some (Obj t) =>
                    match move_assign t tmp with
                    | Assigned (t', _) =>
                      let v' := {| data_ := with_slots (data_ v) (<[offset r := Obj t']> cs2);
                                   size_ := S (size_ v) |} in
                      Returned v' (ptr_add (begin v') index)
                    | AssignThrows (t', _) =>
                      Thrown (with_cells v (<[offset r := Obj t']> cs2))
                    end
                  | _ => Undefined
                  end
                end
              | Thrown cs2 => Thrown (with_cells v cs2)
              | Undefined => Undefined
              end
            end
          end
        | _ => Undefined
        end
      end
    | _, _ => Undefined
    end
  end.

(* the reallocating branch of Emplace *)
Definition emplace_realloc (a : nat) (v : Vector) (index : nat) (args : ctor_args)
  : outcome (nat * Vector) pointer :=
  let new_capacity := if size_ v =? 0 then 1 else size_ v * 2 in
  let (a', new_data) := RawMemory_new new_capacity a in
  (* new (new_data.GetAddress() + index) T(std::forward<Args>(args)...) *)
  match construct_from args with
  | None => Thrown (a', v)
  | Some x =>
    match construct_at (slots new_data) index x with
    | None => Undefined
    | Some new0 =>
      (* try { prefix } catch (...) { std::destroy_at(new_data.GetAddress() + index); } *)
      match try_catch_all (transfer (slots (data_ v)) 0 index new0 0)
              (λ s, pair (fst s) <$> std_destroy_at (snd s) index) with
      | None => Undefined
      | Some (old1, new1) =>
        (* try { suffix } catch (...) { std::destroy(new_data.GetAddress(),
                                                     new_data.GetAddress() + index + 1); } *)
        match try_catch_all (transfer_n old1 index (size_ v - index) new1 (index + 1))
                (λ s, pair (fst s) <$> std_destroy (snd s) 0 (index + 1)) with
        | None => Undefined
        | Some (old2, new2) =>
          (* data_.Swap(new_data); std::destroy_n(new_data.GetAddress(), size_); ++size_ *)
          match std_destroy_n old2 0 (size_ v) with
          | Some _ =>
            let v' := {| data_ := with_slots new_data new2; size_ := S (size_ v) |} in
            Returned (a', v') (ptr_add (begin v') index)
          | None => Undefined
          end
        end
      end
    end
  end.

(* iterator Emplace(const_iterator pos, Args&&... args) *)
Definition Emplace (a : nat) (v : Vector) (pos : pointer) (args : ctor_args)
  : outcome (nat * Vector) pointer :=
  if decide (pos = cend v) then
    match EmplaceBack a v args with
    | Returned (a', v') _ =>
      (* return (end() - 1) *)
      match ptr_pred (end_ v') with
      | Some p => Returned (a', v') p
      | None => Undefined
      end
    | Thrown s => Thrown s
    | Undefined => Undefined
    end
  else
    match distance (cbegin v) pos with
    | None => Undefined
    | Some index =>
      if size_ v <? Capacity v then
        match emplace_in_place v index args with
        | Returned v' p => Returned (a, v') p
        | Thrown v' => Thrown (a, v')
        | Undefined => Undefined
        end
      else emplace_realloc a v index args
    end.

(* iterator Insert(const_iterator pos, const T& value) *)
Definition Insert (a : nat) (v : Vector) (pos : pointer) (value : T)
  : outcome (nat * Vector) pointer :=
  Emplace a v pos (by_copy value).

(* iterator Insert(const_iterator pos, T&& value) *)
Definition Insert_move (a : nat) (v : Vector) (pos : pointer) (value : T)
  : outcome (nat * Vector) pointer :=
  Emplace a v pos (by_move value).

(* iterator Erase(const_iterator pos) *)
Definition Erase (v : Vector) (pos : pointer) : outcome Vector pointer :=
  match distance (cbegin v) pos with
  | None => Undefined
  | Some index =>
    (* std::move(begin() + index + 1, end(), begin() + index) *)
    match std_move (slots (data_ v)) (index + 1) (size_ v) index with
    | Returned cs _ =>
      match PopBack (with_cells v cs) with
      | Returned v' _ => Returned v' (ptr_add (begin v') index)
      | Thrown v' => Thrown v'
      | Undefined => Undefined
      end
    | Thrown cs => Thrown (with_cells v cs)
    | Undefined => Undefined
    end
  end.


(** ** Several vectors

    Assignment compares the addresses of two [Vector] objects, so the
    operations on two vectors work on a store of objects: [objects w]
    maps the address of a [Vector] object to its members. *)

Record World : Type := { next_block : nat; objects : gmap nat Vector }.

Definition empty_world : World := {| next_block := 0; objects := ∅ |}.

Definition put (this : nat) (v : Vector) (a : nat) (w : World) : World :=
  {| next_block := a; objects := <[this := v]> (objects w) |}.

(* a method that may allocate, called on the object at this *)
Definition call {R : Type} (m : nat → Vector → outcome (nat * Vector) R)
    (this : nat) (w : World) : outcome World R :=
  match objects w !! this with
  | Some v =>
    match m (next_block w) v with
    | Returned (a, v') r => Returned (put this v' a w) r
    | Thrown (a, v') => Thrown (put this v' a w)
    | Undefined => Undefined
    end
  | None => Undefined
  end.

(* a method that never allocates, called on the object at this *)
Definition call_in_place {R : Type} (m : Vector → outcome Vector R)
    (this : nat) (w : World) : outcome World R :=
  match objects w !! this with
  | Some v =>
    match m v with
    | Returned v' r => Returned (put this v' (next_block w) w) r
    | Thrown v' => Thrown (put this v' (next_block w) w)
    | Undefined => Undefined
    end
  | None => Undefined
  end.

(* Vector this;  (a new object at an unused address) *)
Definition new_default (this : nat) (w : World) : outcome World unit :=
  match objects w !! this with
  | None => Returned (put this Vector_default (next_block w) w) tt
  | Some _ => Undefined
  end.

(* Vector this(size); *)
Definition new_sized (this size : nat) (w : World) : outcome World unit :=
  match objects w !! this with
  | None =>
    match Vector_sized size (next_block w) with
    | Returned a v => Returned (put this v a w) tt
    | Thrown a => Thrown {| next_block := a; objects := objects w |}
    | Undefined => Undefined
    end
  | Some _ => Undefined
  end.

(* Vector this(other); *)
Definition new_copy (this other : nat) (w : World) : outcome World unit :=
  match objects w !! this, objects w !! other with
  | None, Some o =>
    match Vector_copy o (next_block w) with
    | Returned a v => Returned (put this v a w) tt
    | Thrown a => Thrown {| next_block := a; objects := objects w |}
    | Undefined => Undefined
    end
  | _, _ => Undefined
  end.

(* Vector this(std::move(other)); *)
Definition new_move (this other : nat) (w : World) : outcome World unit :=
  match objects w !! this, objects w !! other with
  | None, Some o =>
    let (v, o') := Vector_move o in
    Returned (put this v (next_block w) (put other o' (next_block w) w)) tt
  | _, _ => Undefined
  end.

(* the object at this goes out of scope *)
Definition delete_object (this : nat) (w : World) : outcome World unit :=
  match objects w !! this with
  | Some v =>
    match Vector_destroy v with
    | Some _ => Returned {| next_block := next_block w; objects := delete this (objects w) |} tt
    | None => Undefined
    end
  | None => Undefined
  end.

(* this->Swap(other) *)
Definition swap_objects (this other : nat) (w : World) : outcome World unit :=
  match objects w !! this, objects w !! other with
  | Some t, Some o =>
    if decide (this = other) then
      (* each member is swapped with itself *)
      Returned w tt
    else
      let (t', o') := Swap t o in
      Returned (put other o' (next_block w) (put this t' (next_block w) w)) tt
  | _, _ => Undefined
  end.

(* Vector& operator=(const Vector& rhs) *)
Definition assign_copy (this rhs : nat) (w : World) : outcome World unit :=
  match objects w !! this, objects w !! rhs with
  | Some t, Some r =>
    if decide (this ≠ rhs) then
      if capacity_ (data_ t) <? size_ r then
        (* Vector rhs_copy(rhs); Swap(rhs_copy); then rhs_copy is destroyed *)
        match Vector_copy r (next_block w) with
        | Returned a rhs_copy =>
          let (t', rhs_copy') := Swap t rhs_copy in
          match Vector_destroy rhs_copy' with
          | Some _ => Returned (put this t' a w) tt
          | None => Undefined
          end
        | Thrown a => Thrown {| next_block := a; objects := objects w |}
        | Undefined => Undefined
        end
      else if size_ r <? size_ t then
        match std_copy_n (slots (data_ r)) 0 (size_ r) (slots (data_ t)) 0 with
        | Returned cs _ =>
          match std_destroy_n cs (size_ r) (size_ t - size_ r) with
          | Some cs' =>
            Returned (put this {| data_ := with_slots (data_ t) cs'; size_ := size_ r |}
                        (next_block w) w) tt
          | None => Undefined
          end
        | Thrown cs => Thrown (put this (with_cells t cs) (next_block w) w)
        | Undefined => Undefined
        end
      else
        match std_copy_n (slots (data_ r)) 0 (size_ t) (slots (data_ t)) 0 with
        | Returned cs _ =>
          match std_uninitialized_copy_n (slots (data_ r)) (size_ t)
                  (size_ r - size_ t) cs (size_ t) with
          | Returned cs' _ =>
            Returned (put this {| data_ := with_slots (data_ t) cs'; size_ := size_ r |}
                        (next_block w) w) tt
          | Thrown cs' => Thrown (put this (with_cells t cs') (next_block w) w)
          | Undefined => Undefined
          end
        | Thrown cs => Thrown (put this (with_cells t cs) (next_block w) w)
        | Undefined => Undefined
        end
    else Returned w tt
  | _, _ => Undefined
  end.

(* Vector& operator=(Vector&& rhs) noexcept *)
Definition assign_move (this rhs : nat) (w : World) : outcome World unit :=
  match objects w !! this, objects w !! rhs with
  | Some t, Some r =>
    if decide (this ≠ rhs) then
      let (t', r') := Swap t r in
      Returned (put rhs r' (next_block w) (put this t' (next_block w) w)) tt
    else Returned w tt
  | _, _ => Undefined
  end.

(** ** What a vector holds *)

(* the values of the first n slots, when all of them are constructed *)
Fixpoint values (cs : list (slot T)) (n : nat) {struct n} : option (list T) :=
  match n with
  | 0 => Some []
  | S n' =>
    match cs with
    | Obj x :: cs' => cons x <$> values cs' n'
    | _ => None
    end
  end.

(* the elements v[0], ..., v[Size() - 1] *)
Definition elements (v : Vector) : option (list T) := values (slots (data_ v)) (size_ v).

(** ** List counterparts of the algorithms

    What each loop over slots does to the run of objects it visits, as a
    function on lists of values.  The lemmas below relate each algorithm
    of the model to its counterpart. *)

(* copy construction of each value in turn; None when one copy throws *)
Fixpoint copy_all (xs : list T) : option (list T) :=
  match xs with
  | [] => Some []
  | x :: xs' =>
    match copy_construct x with
    | Some y => cons y <$> copy_all xs'
    | None => None
    end
  end.

(* move construction of each value in turn: what the sources hold
   afterwards, and the new objects unless a move threw *)
Fixpoint move_all (xs : list T) : list T * option (list T) :=
  match xs with
  | [] => ([], Some [])
  | x :: xs' =>
    match fst (move_construct x) with
    | Some y =>
      (snd (move_construct x) :: fst (move_all xs'), cons y <$> snd (move_all xs'))
    | None => (snd (move_construct x) :: xs', None)
    end
  end.

Definition transfer_all (xs : list T) : list T * option (list T) :=
  if relocate then move_all xs else (xs, copy_all xs).

(* copy assignment of ss onto ds, pairwise: the new ds, and whether all
   assignments returned *)
Fixpoint assign_all (ds ss : list T) : list T * bool :=
  match ds, ss with
  | d :: ds', s :: ss' =>
    match copy_assign d s with
    | Assigned d' => (d' :: fst (assign_all ds' ss'), snd (assign_all ds' ss'))
    | AssignThrows d' => (d' :: ds', false)
    end
  | _, _ => (ds, true)
  end.

(* the run d, y1, ..., yn after each y was move-assigned to the slot
   before it, front to back *)
Fixpoint shift_left (d : T) (ys : list T) : list T * bool :=
  match ys with
  | [] => ([d], true)
  | y :: ys' =>
    match move_assign d y with
    | Assigned (d', y') => (d' :: fst (shift_left y' ys'), snd (shift_left y' ys'))
    | AssignThrows (d', y') => (d' :: y' :: ys', false)
    end
  end.

(* the run yn, ..., y1, d (given back to front) after each y was
   move-assigned to the slot after it, back to front; the result is
   front to back *)
Fixpoint shift_right_rev (rys : list T) (d : T) : list T * bool :=
  match rys with
  | [] => ([d], true)
  | y :: rys' =>
    match move_assign d y with
    | Assigned (d', y') => (fst (shift_right_rev rys' y') ++ [d'], snd (shift_right_rev rys' y'))
    | AssignThrows (d', y') => (rev rys' ++ [y'; d'], false)
    end
  end.

Definition shift_right (ys : list T) (d : T) : list T * bool :=
  shift_right_rev (rev ys) d.

(** ** Well-behaved values *)

(* copying x gives x *)
Definition copyable (x : T) : Prop := copy_construct x = Some x.
(* moving x gives x *)
Definition movable (x : T) : Prop := fst (move_construct x) = Some x.
(* d = x and d = std::move(x) make d equal to x *)
Definition copy_assignable (x : T) : Prop := ∀ d, copy_assign d x = Assigned x.
Definition move_assignable (x : T) : Prop := ∀ d, ∃ r, move_assign d x = Assigned (x, r).

Definition regular (x : T) : Prop :=
  copyable x ∧ movable x ∧ copy_assignable x ∧ move_assignable x.

(** ** The vector with buffer address b, capacity cap and elements xs *)

Definition vec (b : option nat) (cap : nat) (xs : list T) : Vector :=
  {| data_ :=
       {| buffer_ :=
            (λ a, {| base := a; cells := (Obj <$> xs) ++ replicate (cap - length xs) Raw |}) <$> b;
          capacity_ := cap |};
     size_ := length xs |}.

(* the side conditions under which vec b cap xs is a vector of the program *)
Definition wf (b : option nat) (cap : nat) (xs : list T) : Prop :=
  length xs ≤ cap ∧ (b = None → cap = 0).

(* v is well formed and holds xs *)
Definition holds (v : Vector) (xs : list T) : Prop :=
  slots (data_ v) = (Obj <$> xs) ++ replicate (Capacity v - size_ v) Raw
  ∧ length xs = size_ v
  ∧ size_ v ≤ Capacity v.

(** The invariant of the data model: [0 ≤ size ≤ capacity], the buffer
    has [capacity] slots, slots [[0, size)] hold constructed objects and
    slots [[size, capacity)] hold none. *)
Definition invariant (v : Vector) : Prop :=
  size_ v ≤ Capacity v
  ∧ length (slots (data_ v)) = Capacity v
  ∧ (∀ i, i < size_ v → ∃ x, slots (data_ v) !! i = Some (Obj x))
  ∧ (∀ i, size_ v ≤ i < Capacity v → slots (data_ v) !! i = Some Raw).

(** ** Programs over a store of vectors *)

(* v[index] = x, through the reference that operator[] returns *)
Definition assign_element (v : Vector) (index : nat) (x : T) : outcome Vector unit :=
  match index_op v index with
  | None => Undefined
  | Some p =>
    match slots (data_ v) !! offset p with
    | Some (Obj d) =>
      match copy_assign d x with
      | Assigned d' => Returned (with_cells v (<[offset p := Obj d']> (slots (data_ v)))) tt
      | AssignThrows d' => Thrown (with_cells v (<[offset p := Obj d']> (slots (data_ v))))
      end
    | _ => Undefined
    end
  end.

(** The public operations that change a vector.  [Insert] is [Emplace]
    with [by_copy] or [by_move] arguments; a position is given by its
    distance from [begin()]. *)
Inductive operation : Type :=
  | OpDefault (this : nat)
  | OpSized (this size : nat)
  | OpCopy (this other : nat)
  | OpMove (this other : nat)
  | OpDestroy (this : nat)
  | OpAssignCopy (this rhs : nat)
  | OpAssignMove (this rhs : nat)
  | OpSwap (this other : nat)
  | OpReserve (this n : nat)
  | OpResize (this n : nat)
  | OpEmplaceBack (this : nat) (args : ctor_args)
  | OpPushBack (this : nat) (value : T)
  | OpPushBackForward (this : nat) (args : ctor_args)
  | OpPopBack (this : nat)
  | OpEmplace (this p : nat) (args : ctor_args)
  | OpErase (this p : nat)
  | OpAssignElement (this index : nat) (x : T).

Definition forget {S R : Type} (o : outcome S R) : outcome S unit :=
  match o with
  | Returned s _ => Returned s tt
  | Thrown s => Thrown s
  | Undefined => Undefined
  end.

Definition run (o : operation) (w : World) : outcome World unit :=
  match o with
  | OpDefault this => new_default this w
  | OpSized this size => new_sized this size w
  | OpCopy this other => new_copy this other w
  | OpMove this other => new_move this other w
  | OpDestroy this => delete_object this w
  | OpAssignCopy this rhs => assign_copy this rhs w
  | OpAssignMove this rhs => assign_move this rhs w
  | OpSwap this other => swap_objects this other w
  | OpReserve this n => call (λ a v, Reserve a v n) this w
  | OpResize this n => call (λ a v, Resize a v n) this w
  | OpEmplaceBack this args => forget (call (λ a v, EmplaceBack a v args) this w)
  | OpPushBack this value => call (λ a v, PushBack a v value) this w
  | OpPushBackForward this args => call (λ a v, PushBack_forward a v args) this w
  | OpPopBack this => call_in_place PopBack this w
  | OpEmplace this p args =>
    forget (call (λ a v, Emplace a v (ptr_add (begin v) p) args) this w)
  | OpErase this p => forget (call_in_place (λ v, Erase v (ptr_add (begin v) p)) this w)
  | OpAssignElement this index x => call_in_place (λ v, assign_element v index x) this w
  end.





(* the worlds a program reaches from the empty one by operations that
   satisfy [allowed], whether they return or exit by an exception *)
Inductive reachable_by (allowed : operation → World → Prop) : World → Prop :=
  | reachable_start : reachable_by allowed empty_world
  | reachable_return o w w' :
      reachable_by allowed w → allowed o w → run o w = Returned w' tt →
      reachable_by allowed w'
  | reachable_throw o w w' :
      reachable_by allowed w → allowed o w → run o w = Thrown w' →
      reachable_by allowed w'.

(* the capacities along a run of appends, the one before the first append
   included; None when an append does not return *)
Fixpoint append_run (l : list ctor_args) (a : nat) (v : Vector) : option (list nat) :=
  match l with
  | [] => Some [Capacity v]
  | args :: l' =>
    match EmplaceBack a v args with
    | Returned (a', v') _ => cons (Capacity v) <$> append_run l' a' v'
    | _ => None
    end
  end.

(* what an append that returns does to the storage: with spare capacity
   nothing is allocated and the buffer stays; otherwise the vector was
   full, one block is allocated and the capacity becomes 1 (from 0) or
   doubles *)
Definition append_effect (v : Vector) (a a' : nat) (v' : Vector) : Prop :=
  if size_ v <? Capacity v
  then a' = a ∧ begin v' = begin v ∧ Capacity v' = Capacity v
  else size_ v = Capacity v
       ∧ a' = S a
       ∧ Capacity v' = (if Capacity v =? 0 then 1 else 2 * Capacity v).

(* P holds of the state a call leaves behind, however it ends *)
Definition keeps {S R : Type} (P : S → Prop) (o : outcome S R) : Prop :=
  match o with
  | Returned s _ => P s
  | Thrown s => P s
  | Undefined => True
  end.

(* v is well formed and holds some elements *)
Definition good (v : Vector) : Prop := ∃ xs, holds v xs.

Definition World_good (w : World) : Prop := ∀ id v, objects w !! id = Some v → good v.

(** ** Storage and ownership *)

(* buffer and capacity of v' are those of v *)
Definition storage_kept (v v' : Vector) : Prop :=
  begin v' = begin v ∧ Capacity v' = Capacity v.

(* how a call on v, started with next free address a, may leave storage:
   at most one block is allocated; either buffer and capacity are kept, or
   the vector now owns the block just allocated and its capacity is
   larger *)
Definition storage_step (a : nat) (v : Vector) (s : nat * Vector) : Prop :=
  a ≤ fst s ≤ S a
  ∧ (storage_kept v (snd s)
     ∨ (fst s = S a
        ∧ begin (snd s) = {| block_of := Some a; offset := 0 |}
        ∧ Capacity v < Capacity (snd s))).

(* the address of the buffer of v, None for nullptr *)
Definition base_of (v : Vector) : option nat := block_of (begin v).

(* every buffer was handed out by the allocator, no two vectors share a
   buffer, and a vector has no buffer exactly when its capacity is 0 *)
Definition exclusive (w : World) : Prop :=
  (∀ id v b, objects w !! id = Some v → base_of v = Some b → b < next_block w)
  ∧ (∀ i j vi vj b, i ≠ j → objects w !! i = Some vi → objects w !! j = Some vj →
       base_of vi = Some b → base_of vj ≠ Some b)
  ∧ (∀ id v, objects w !! id = Some v → (base_of v = None ↔ Capacity v = 0)).

(* what a constructor that may allocate leaves: nothing allocated and no
   buffer, or one block allocated, which is the buffer of v *)
Definition fresh_storage (a a' : nat) (v : Vector) : Prop :=
  (a' = a ∧ base_of v = None ∧ Capacity v = 0)
  ∨ (a' = S a ∧ base_of v = Some a ∧ 0 < Capacity v).


End Model.

(** ** Two element types *)

(** An [int]-like element: nothing throws, moving is [noexcept] and leaves
    0 behind. *)
Definition plain : Element nat nat :=
  {| construct a := Some a;
     value_construct := Some 0;
     copy_construct x := Some x;
     move_construct x := (Some x, 0);
     copy_assign d s := Assigned s;
     move_assign d s := Assigned (s, 0);
     is_nothrow_move_constructible := true;
     is_copy_constructible := true |}.

(** An element whose copy constructor (and copy assignment) throws on the
    designated value 13 and whose move constructor is not [noexcept]. *)
Definition fragile : Element nat nat :=
  {| construct a := Some a;
     value_construct := Some 0;
     copy_construct x := if x =? 13 then None else Some x;
     move_construct x := (Some x, 0);
     copy_assign d s := if s =? 13 then AssignThrows d else Assigned s;
     move_assign d s := Assigned (s, 0);
     is_nothrow_move_constructible := false;
     is_copy_constructible := true |}.

(** An element whose move assignment throws when the source is 13; its
    move constructor is [noexcept]. *)
Definition touchy : Element nat nat :=
  {| construct a := Some a;
     value_construct := Some 0;
     copy_construct x := Some x;
     move_construct x := (Some x, 0);
     copy_assign d s := Assigned s;
     move_assign d s := if s =? 13 then AssignThrows (d, s) else Assigned (s, 0);
     is_nothrow_move_constructible := true;
     is_copy_constructible := true |}.

(** The doubling sequence 0, 1, 2, 4, 4, 8, 8, 8, 8, 16, ...: the least
    power of two that is no less than k, and 0 for k = 0. *)
Definition growth (k : nat) : nat := if k =? 0 then 0 else 2 ^ Nat.log2_up k.

(** ** Sample vectors and worlds *)

(* [1; 2; 3] in a buffer of capacity 4 at address 2, as three appends to an
   empty vector leave it *)
Definition v123 : Vector (T:=nat) := vec (Some 2) 4 [1; 2; 3].

(* the full vector [1; 2; 3; 4] *)
Definition v1234 : Vector (T:=nat) := vec (Some 2) 4 [1; 2; 3; 4].

(* the full vector [2; 13], as EmplaceBack(2), EmplaceBack(13) leave it *)
Definition v2_13 : Vector (T:=nat) := vec (Some 1) 2 [2; 13].

(* two vector objects, at 0 and at 1 *)
Definition two_vectors (t r : Vector (T:=nat)) : World (T:=nat) :=
  {| next_block := 5; objects := <[0 := t]> (<[1 := r]> ∅) |}.

(* the world holding one vector, at 0 *)
Definition one_vector (a : nat) (v : Vector (T:=nat)) : World (T:=nat) :=
  {| next_block := a; objects := <[0 := v]> ∅ |}.


(* a buffer of four destroyed slots under size_ 3 *)
Definition v_hollow : Vector (T:=nat) :=
  {| data_ := {| buffer_ := Some {| base := 2; cells := [Raw; Raw; Raw; Raw] |};
                 capacity_ := 4 |};
     size_ := 3 |}.

(* constructor arguments: a copy of 9, and the argument 9 *)
Definition copy_of_9 : ctor_args (T:=nat) (Args:=nat) := by_copy 9.
Definition args_9 : ctor_args (T:=nat) (Args:=nat) := by_args 9.

(* [1; 13; 3] in a buffer of capacity 4 *)
Definition v1_13_3 : Vector (T:=nat) := vec (Some 2) 4 [1; 13; 3].

(** An element that cannot be value-initialised: its default constructor
    throws; everything else is as for [plain]. *)
Definition no_default : Element nat nat :=
  {| construct a := Some a;
     value_construct := None;
     copy_construct x := Some x;
     move_construct x := (Some x, 0);
     copy_assign d s := Assigned s;
     move_assign d s := Assigned (s, 0);
     is_nothrow_move_constructible := true;
     is_copy_constructible := true |}.

(* the vector [7; 8] in a buffer of capacity 2 at address 4 *)
Definition v78 : Vector (T:=nat) := vec (Some 4) 2 [7; 8].


(* constructor arguments: a copy of 13 *)
Definition copy_of_13 : ctor_args (T:=nat) (Args:=nat) := by_copy 13.

(* [1; 2; 13] in a buffer of capacity 4 *)
Definition v1_2_13 : Vector (T:=nat) := vec (Some 2) 4 [1; 2; 13].




(* the vector [1] at address 0 and its copy at address 1, as
   Vector a; a.EmplaceBack(1); Vector b(a); leave them *)
Definition original_and_copy : World (T:=nat) :=
  {| next_block := 2;
     objects := <[1 := vec (Some 1) 1 [1]]> (<[0 := vec (Some 0) 1 [1]]> ∅) |}.


(** * Properties *)

Section Facts.
Context {T Args : Type} `{E : Element T Args}.
Implicit Types (xs ys rs : list T) (cs pre post : list (slot T)).
Implicit Types (v : Vector (T:=T)) (w : World (T:=T)).

(** ** Lists of slots *)

Lemma insert_middle {A} (l1 l2 : list A) (x y : A) :
  <[length l1 := y]> (l1 ++ x :: l2) = l1 ++ y :: l2.
Proof.
  rewrite insert_app_r_alt by lia. by rewrite Nat.sub_diag.
Qed.

Lemma lookup_middle {A} (l1 l2 : list A) (x : A) :
  (l1 ++ x :: l2) !! length l1 = Some x.
Proof. by apply list_lookup_middle. Qed.

Lemma snoc_app {A} (l1 l2 : list A) (x : A) : l1 ++ x :: l2 = (l1 ++ [x]) ++ l2.
Proof. by rewrite <- app_assoc. Qed.

Lemma length_snoc {A} (l : list A) (x : A) : length (l ++ [x]) = S (length l).
Proof. rewrite length_app. simpl. lia. Qed.

(** ** The algorithms and their list counterparts *)

Lemma std_destroy_n_app pre xs post :
  std_destroy_n (pre ++ (Obj <$> xs) ++ post) (length pre) (length xs)
  = Some (pre ++ replicate (length xs) Raw ++ post).
Proof.
  revert pre. induction xs as [|x xs IH]; intros pre; [done|].
  simpl. unfold std_destroy_at. rewrite lookup_middle, insert_middle.
  rewrite snoc_app, <- (length_snoc pre Raw), IH.
  by rewrite <- app_assoc.
Qed.

Lemma std_uninitialized_value_construct_n_app pre n post :
  std_uninitialized_value_construct_n (pre ++ replicate n Raw ++ post) (length pre) n
  = match value_construct with
    | Some d => Returned (pre ++ replicate n (Obj d) ++ post) tt
    | None =>
      match n with
      | 0 => Returned (pre ++ post) tt
      | S _ => Thrown (pre ++ replicate n Raw ++ post)
      end
    end.
Proof.
  revert pre. induction n as [|n IH]; intros pre; simpl.
  - by destruct value_construct.
  - destruct value_construct as [d|] eqn:Hd; [|done].
    rewrite length_app. simpl.
    destruct (Nat.ltb_spec (length pre) (length pre + S (length (replicate n Raw ++ post))));
      [|lia].
    rewrite insert_middle, snoc_app, <- (length_snoc pre (Obj d)), IH.
    by rewrite <- app_assoc.
Qed.

Lemma std_uninitialized_copy_n_app spre xs spost pre post :
  std_uninitialized_copy_n (spre ++ (Obj <$> xs) ++ spost) (length spre) (length xs)
    (pre ++ replicate (length xs) Raw ++ post) (length pre)
  = match copy_all xs with
    | Some ys => Returned (pre ++ (Obj <$> ys) ++ post) tt
    | None => Thrown (pre ++ replicate (length xs) Raw ++ post)
    end.
Proof.
  revert spre pre. induction xs as [|x xs IH]; intros spre pre; [done|].
  simpl. rewrite lookup_middle.
  destruct (copy_construct x) as [y|]; [|done].
  rewrite length_app. simpl.
  destruct (Nat.ltb_spec (length pre)
              (length pre + S (length (replicate (length xs) Raw ++ post)))); [|lia].
  rewrite insert_middle.
  rewrite (snoc_app spre), (snoc_app pre), <- (length_snoc spre (Obj x)),
    <- (length_snoc pre (Obj y)), IH.
  destruct (copy_all xs) as [ys|]; simpl.
  - by rewrite <- app_assoc.
  - rewrite <- app_assoc. simpl. by rewrite insert_middle.
Qed.

Lemma std_uninitialized_move_n_app spre xs spost pre post :
  std_uninitialized_move_n (spre ++ (Obj <$> xs) ++ spost) (length spre) (length xs)
    (pre ++ replicate (length xs) Raw ++ post) (length pre)
  = match snd (move_all xs) with
    | Some ys =>
      Returned (spre ++ (Obj <$> fst (move_all xs)) ++ spost, pre ++ (Obj <$> ys) ++ post) tt
    | None =>
      Thrown (spre ++ (Obj <$> fst (move_all xs)) ++ spost,
              pre ++ replicate (length xs) Raw ++ post)
    end.
Proof.
  revert spre pre. induction xs as [|x xs IH]; intros spre pre; [done|].
  simpl. rewrite lookup_middle, insert_middle.
  destruct (move_construct x) as [[y|] r]; simpl; [|done].
  rewrite length_app. simpl.
  destruct (Nat.ltb_spec (length pre)
              (length pre + S (length (replicate (length xs) Raw ++ post)))); [|lia].
  rewrite insert_middle.
  rewrite (snoc_app spre), (snoc_app pre), <- (length_snoc spre (Obj r)),
    <- (length_snoc pre (Obj y)), IH.
  destruct (snd (move_all xs)) as [ys|]; simpl.
  - by rewrite <- !app_assoc.
  - rewrite <- !app_assoc. simpl. by rewrite insert_middle.
Qed.

Lemma std_copy_n_app spre ss spost pre ds post :
  length ds = length ss →
  std_copy_n (spre ++ (Obj <$> ss) ++ spost) (length spre) (length ss)
    (pre ++ (Obj <$> ds) ++ post) (length pre)
  = if snd (assign_all ds ss)
    then Returned (pre ++ (Obj <$> fst (assign_all ds ss)) ++ post) tt
    else Thrown (pre ++ (Obj <$> fst (assign_all ds ss)) ++ post).
Proof.
  revert spre pre ds. induction ss as [|s ss IH]; intros spre pre [|d ds] Hlen;
    simplify_eq/=; [done|].
  rewrite !lookup_middle.
  destruct (copy_assign d s) as [d'|d']; simpl; rewrite insert_middle; [|done].
  rewrite (snoc_app spre), (snoc_app pre), <- (length_snoc spre (Obj s)),
    <- (length_snoc pre (Obj d')), IH by done.
  destruct (snd (assign_all ds ss)); by rewrite <- app_assoc.
Qed.

Lemma move_assign_at_down pre (a b : T) post :
  move_assign_at (pre ++ Obj a :: Obj b :: post) (length pre) (S (length pre))
  = match move_assign a b with
    | Assigned (a', b') => Returned (pre ++ Obj a' :: Obj b' :: post) tt
    | AssignThrows (a', b') => Thrown (pre ++ Obj a' :: Obj b' :: post)
    end.
Proof.
  unfold move_assign_at.
  rewrite lookup_middle.
  rewrite (snoc_app pre), <- (length_snoc pre (Obj a)), lookup_middle.
  destruct (move_assign a b) as [[a' b']|[a' b']];
    rewrite insert_middle, <- app_assoc; simpl; by rewrite insert_middle.
Qed.

Lemma move_assign_at_up pre (a b : T) post :
  move_assign_at (pre ++ Obj a :: Obj b :: post) (S (length pre)) (length pre)
  = match move_assign b a with
    | Assigned (b', a') => Returned (pre ++ Obj a' :: Obj b' :: post) tt
    | AssignThrows (b', a') => Thrown (pre ++ Obj a' :: Obj b' :: post)
    end.
Proof.
  unfold move_assign_at.
  assert ((pre ++ Obj a :: Obj b :: post) !! S (length pre) = Some (Obj b)) as ->.
  { rewrite (snoc_app pre), <- (length_snoc pre (Obj a)). apply lookup_middle. }
  rewrite lookup_middle.
  destruct (move_assign b a) as [[b' a']|[b' a']];
    rewrite insert_middle, (snoc_app pre), <- (length_snoc pre (Obj a')), insert_middle;
    by rewrite <- app_assoc.
Qed.

Lemma std_move_n_app pre d ys post :
  std_move_n (pre ++ Obj d :: (Obj <$> ys) ++ post) (S (length pre)) (length ys) (length pre)
  = if snd (shift_left d ys)
    then Returned (pre ++ (Obj <$> fst (shift_left d ys)) ++ post) tt
    else Thrown (pre ++ (Obj <$> fst (shift_left d ys)) ++ post).
Proof.
  revert pre d. induction ys as [|y ys IH]; intros pre d; [done|].
  simpl. rewrite move_assign_at_down.
  destruct (move_assign d y) as [[d' y']|[d' y']]; simpl; [|done].
  rewrite (snoc_app pre), <- (length_snoc pre (Obj d')), IH.
  destruct (snd (shift_left y' ys)); by rewrite <- app_assoc.
Qed.

Lemma std_move_backward_n_app pre rys d post :
  std_move_backward_n (pre ++ (Obj <$> rev rys) ++ Obj d :: post) (length pre) (length rys)
    (S (length pre + length rys))
  = if snd (shift_right_rev rys d)
    then Returned (pre ++ (Obj <$> fst (shift_right_rev rys d)) ++ post) tt
    else Thrown (pre ++ (Obj <$> fst (shift_right_rev rys d)) ++ post).
Proof.
  revert d post. induction rys as [|y rys IH]; intros d post; [done|].
  cbn [std_move_backward_n length rev shift_right_rev].
  rewrite fmap_app. simpl.
  replace (pre ++ ((Obj <$> rev rys) ++ [Obj y]) ++ Obj d :: post)
    with ((pre ++ (Obj <$> rev rys)) ++ Obj y :: Obj d :: post)
    by (by rewrite <- !app_assoc).
  replace (length pre + S (length rys)) with (S (length (pre ++ (Obj <$> rev rys))))
    by (rewrite length_app, length_fmap, length_rev; lia).
  replace (length pre + length rys) with (length (pre ++ (Obj <$> rev rys)))
    by (rewrite length_app, length_fmap, length_rev; lia).
  rewrite move_assign_at_up.
  destruct (move_assign d y) as [[d' y']|[d' y']]; simpl.
  - rewrite <- app_assoc.
    replace (S (length (pre ++ (Obj <$> rev rys)))) with (S (length pre + length rys))
      by (rewrite length_app, length_fmap, length_rev; lia).
    rewrite IH.
    destruct (snd (shift_right_rev rys y')); rewrite fmap_app, <- !app_assoc; done.
  - rewrite fmap_app, <- !app_assoc. done.
Qed.

Lemma transfer_n_app spre xs spost pre post :
  transfer_n (spre ++ (Obj <$> xs) ++ spost) (length spre) (length xs)
    (pre ++ replicate (length xs) Raw ++ post) (length pre)
  = match snd (transfer_all xs) with
    | Some ys =>
      Returned (spre ++ (Obj <$> fst (transfer_all xs)) ++ spost,
                pre ++ (Obj <$> ys) ++ post) tt
    | None =>
      Thrown (spre ++ (Obj <$> fst (transfer_all xs)) ++ spost,
              pre ++ replicate (length xs) Raw ++ post)
    end.
Proof.
  unfold transfer_n, transfer_all. destruct relocate.
  - apply std_uninitialized_move_n_app.
  - rewrite std_uninitialized_copy_n_app. simpl. by destruct (copy_all xs).
Qed.

Lemma transfer_app xs spost pre post :
  transfer ((Obj <$> xs) ++ spost) 0 (length xs)
    (pre ++ replicate (length xs) Raw ++ post) (length pre)
  = match snd (transfer_all xs) with
    | Some ys =>
      Returned ((Obj <$> fst (transfer_all xs)) ++ spost, pre ++ (Obj <$> ys) ++ post) tt
    | None =>
      Thrown ((Obj <$> fst (transfer_all xs)) ++ spost,
              pre ++ replicate (length xs) Raw ++ post)
    end.
Proof.
  pose proof (transfer_n_app [] xs spost pre post) as H. simpl in H.
  unfold transfer, transfer_n, std_uninitialized_move, std_uninitialized_copy in *.
  simpl. by rewrite Nat.sub_0_r.
Qed.

(** ** Facts on the list counterparts *)

Lemma copy_all_length xs ys : copy_all xs = Some ys → length ys = length xs.
Proof.
  revert ys. induction xs as [|x xs IH]; intros ys; simpl; [naive_solver|].
  destruct (copy_construct x); [|done].
  destruct (copy_all xs) as [ys'|]; [|done]. simpl. intros [= <-]. simpl. by rewrite IH.
Qed.

Lemma move_all_length_fst xs : length (fst (move_all xs)) = length xs.
Proof.
  induction xs as [|x xs IH]; [done|]. simpl.
  destruct (fst (move_construct x)); simpl; by rewrite ?IH.
Qed.

Lemma move_all_length_snd xs ys : snd (move_all xs) = Some ys → length ys = length xs.
Proof.
  revert ys. induction xs as [|x xs IH]; intros ys; simpl; [naive_solver|].
  destruct (fst (move_construct x)); [|done]. simpl.
  destruct (snd (move_all xs)) as [ys'|]; [|done]. simpl. intros [= <-]. simpl. by rewrite IH.
Qed.

Lemma transfer_all_length_fst xs : length (fst (transfer_all xs)) = length xs.
Proof. unfold transfer_all. destruct relocate; [apply move_all_length_fst|done]. Qed.

Lemma transfer_all_length_snd xs ys :
  snd (transfer_all xs) = Some ys → length ys = length xs.
Proof.
  unfold transfer_all. destruct relocate; [apply move_all_length_snd|apply copy_all_length].
Qed.

Lemma copy_all_regular xs : Forall copyable xs → copy_all xs = Some xs.
Proof.
  induction 1 as [|x xs Hx _ IH]; [done|]. simpl. by rewrite Hx, IH.
Qed.

Lemma move_all_regular xs : Forall movable xs → snd (move_all xs) = Some xs.
Proof.
  induction 1 as [|x xs Hx _ IH]; [done|]. simpl. rewrite Hx. simpl. by rewrite IH.
Qed.

Lemma transfer_all_regular xs : Forall regular xs → snd (transfer_all xs) = Some xs.
Proof.
  intros H. unfold transfer_all. destruct relocate.
  - apply move_all_regular. eapply Forall_impl; [done|]. by intros x (?&?&?&?).
  - apply copy_all_regular. eapply Forall_impl; [done|]. by intros x (?&?&?&?).
Qed.

(** ** Well-formed vectors *)

Lemma slots_vec b cap xs :
  wf b cap xs →
  slots (data_ (vec b cap xs)) = (Obj <$> xs) ++ replicate (cap - length xs) Raw.
Proof.
  intros [Hle Hb]. unfold vec, slots. simpl. destruct b as [a|]; [done|].
  rewrite Hb in * by done. destruct xs; simpl in *; [done|lia].
Qed.

Lemma holds_vec b cap xs : wf b cap xs → holds (vec b cap xs) xs.
Proof.
  intros Hwf. split; [|split]; [|done|apply Hwf].
  by rewrite slots_vec.
Qed.

Lemma holds_eq v xs :
  holds v xs → v = vec (base <$> buffer_ (data_ v)) (Capacity v) xs.
Proof.
  destruct v as [[[[a cs]|] cap] n]; unfold holds, vec, Capacity, slots; simpl;
    intros (Hcs & Hn & Hle); by subst.
Qed.

Lemma holds_wf v xs : holds v xs → wf (base <$> buffer_ (data_ v)) (Capacity v) xs.
Proof.
  destruct v as [[[[a cs]|] cap] n]; unfold holds, wf, Capacity, slots; simpl;
    intros (Hcs & Hn & Hle); subst; split; try done; try lia.
  intros _. symmetry in Hcs. apply app_eq_nil in Hcs as [H1 H2].
  apply fmap_nil_inv in H1. subst. simpl in *.
  destruct cap; [done|discriminate].
Qed.


Lemma values_app xs cs : values ((Obj <$> xs) ++ cs) (length xs) = Some xs.
Proof.
  induction xs as [|x xs IH]; [reflexivity|].
  rewrite fmap_cons. cbn [app length values]. by rewrite IH.
Qed.

Lemma holds_elements v xs : holds v xs → elements v = Some xs.
Proof.
  intros (Hs & Hl & _). unfold elements. rewrite Hs, <- Hl. by rewrite values_app.
Qed.

Lemma with_slots_vec b cap xs ys k :
  k = cap - length ys →
  with_slots (data_ (vec b cap xs)) ((Obj <$> ys) ++ replicate k Raw) = data_ (vec b cap ys).
Proof. intros ->. unfold with_slots, vec. simpl. by destruct b. Qed.

Lemma with_cells_vec b cap xs ys k :
  k = cap - length ys → length ys = length xs →
  with_cells (vec b cap xs) ((Obj <$> ys) ++ replicate k Raw) = vec b cap ys.
Proof.
  intros -> Hlen. unfold with_cells. rewrite with_slots_vec by done.
  unfold vec. simpl. by rewrite Hlen.
Qed.

Lemma Allocate_pos n a :
  n ≠ 0 → Allocate (T:=T) n a = (S a, Some {| base := a; cells := replicate n Raw |}).
Proof. intros H. unfold Allocate. by destruct n. Qed.

Lemma RawMemory_new_pos n a :
  n ≠ 0 →
  RawMemory_new (T:=T) n a
  = (S a, {| buffer_ := Some {| base := a; cells := replicate n Raw |}; capacity_ := n |}).
Proof. intros H. unfold RawMemory_new. by rewrite Allocate_pos. Qed.

Lemma replicate_split {A} (n m : nat) (x : A) :
  n ≤ m → replicate m x = replicate n x ++ replicate (m - n) x.
Proof.
  intros H. rewrite <- replicate_add. f_equal. lia.
Qed.

(** ** The methods on well-formed vectors *)

Lemma Reserve_vec a b cap xs n :
  wf b cap xs →
  Reserve a (vec b cap xs) n
  = if n <=? cap then Returned (a, vec b cap xs) tt
    else match snd (transfer_all xs) with
         | Some ys => Returned (S a, vec (Some a) n ys) tt
         | None => Thrown (S a, vec b cap (fst (transfer_all xs)))
         end.
Proof.
  intros Hwf. unfold Reserve. rewrite slots_vec by done.
  change (capacity_ (data_ (vec b cap xs))) with cap.
  change (size_ (vec b cap xs)) with (length xs).
  destruct (Nat.leb_spec n cap) as [|Hlt]; [done|].
  destruct Hwf as [Hle Hb].
  rewrite RawMemory_new_pos by lia.
  change (slots {| buffer_ := Some {| base := a; cells := replicate n Raw |};
                   capacity_ := n |}) with (@replicate (slot T) n Raw).
  rewrite (replicate_split (length xs) n) by lia.
  pose proof (transfer_n_app [] xs (replicate (cap - length xs) Raw) []
                (replicate (n - length xs) Raw)) as Ht.
  simpl in Ht. rewrite Ht. clear Ht.
  pose proof (transfer_all_length_fst xs) as Hl1.
  destruct (snd (transfer_all xs)) as [ys|] eqn:Hys.
  - apply transfer_all_length_snd in Hys as Hl2.
    pose proof (std_destroy_n_app [] (fst (transfer_all xs))
                  (replicate (cap - length xs) Raw)) as Hd.
    simpl in Hd. rewrite Hl1 in Hd. rewrite Hd.
    unfold vec, with_slots. simpl. by rewrite Hl2.
  - by rewrite with_cells_vec by lia.
Qed.

Lemma vec_snoc_slots cap xs x :
  length xs < cap →
  (Obj <$> xs) ++ Obj x :: replicate (cap - length xs - 1) Raw
  = (Obj <$> xs ++ [x]) ++ replicate (cap - length (xs ++ [x])) Raw.
Proof.
  intros H. rewrite fmap_app, <- app_assoc, length_snoc. simpl.
  do 3 f_equal. lia.
Qed.

Lemma construct_at_middle pre (c : slot T) post i x :
  i = length pre → construct_at (pre ++ c :: post) i x = Some (pre ++ Obj x :: post).
Proof.
  intros ->. unfold construct_at. rewrite length_app. simpl.
  destruct (Nat.ltb_spec (length pre) (length pre + S (length post))); [|lia].
  by rewrite insert_middle.
Qed.

Lemma std_destroy_at_middle pre (y : T) post i :
  i = length pre → std_destroy_at (pre ++ Obj y :: post) i = Some (pre ++ Raw :: post).
Proof.
  intros ->. unfold std_destroy_at. by rewrite lookup_middle, insert_middle.
Qed.

Ltac norm :=
  cbn [slots buffer_ cells capacity_ size_ data_ offset ptr_add
       GetAddress block_of base fmap option_fmap option_map Nat.add fst snd].

Ltac normw := try unfold with_cells; try unfold with_slots; norm.

Lemma append_in_place_vec a b cap xs args :
  wf b cap xs → length xs < cap →
  append_in_place a (vec b cap xs) args
  = match construct_from args with
    | None => Thrown (a, vec b cap xs)
    | Some x => Returned (a, vec b cap (xs ++ [x])) tt
    end.
Proof.
  intros Hwf Hlt. unfold append_in_place, RawMemory_plus.
  rewrite slots_vec by done.
  change (capacity_ (data_ (vec b cap xs))) with cap.
  change (size_ (vec b cap xs)) with (length xs).
  destruct (Nat.leb_spec (length xs) cap); [|lia].
  destruct (construct_from args) as [x|]; [|done].
  norm.
  replace (cap - length xs) with (S (cap - length xs - 1)) by lia.
  cbn [replicate].
  rewrite construct_at_middle by (by rewrite length_fmap).
  rewrite vec_snoc_slots by done.
  unfold vec. norm. rewrite length_snoc. by destruct b.
Qed.

Lemma append_realloc_vec a b cap xs args :
  wf b cap xs →
  append_realloc a (vec b cap xs) args
  = match construct_from args with
    | None => Thrown (S a, vec b cap xs)
    | Some x =>
      match snd (transfer_all xs) with
      | Some ys =>
        Returned (S a, vec (Some a) (if length xs =? 0 then 1 else length xs * 2)
                         (ys ++ [x])) tt
      | None => Thrown (S a, vec b cap (fst (transfer_all xs)))
      end
    end.
Proof.
  intros Hwf. unfold append_realloc, RawMemory_plus.
  rewrite slots_vec by done.
  change (size_ (vec b cap xs)) with (length xs).
  set (n := if length xs =? 0 then 1 else length xs * 2).
  assert (length xs < n) as Hn by (unfold n; destruct (length xs); simpl; lia).
  rewrite RawMemory_new_pos by lia. norm.
  destruct (Nat.leb_spec (length xs) n); [|lia].
  destruct (construct_from args) as [x|]; [|done].
  norm.
  rewrite (replicate_split (length xs) n) by lia.
  replace (n - length xs) with (S (n - length xs - 1)) by lia.
  cbn [replicate].
  rewrite construct_at_middle by (by rewrite length_replicate).
  pose proof (transfer_n_app [] xs (replicate (cap - length xs) Raw) []
                (Obj x :: replicate (n - length xs - 1) Raw)) as Ht.
  simpl in Ht. rewrite Ht. clear Ht.
  pose proof (transfer_all_length_fst xs) as Hl1.
  destruct (snd (transfer_all xs)) as [ys|] eqn:Hys.
  - apply transfer_all_length_snd in Hys as Hl2.
    pose proof (std_destroy_n_app [] (fst (transfer_all xs))
                  (replicate (cap - length xs) Raw)) as Hd.
    simpl in Hd. rewrite Hl1 in Hd. rewrite Hd.
    unfold vec. norm.
    rewrite <- Hl2, (vec_snoc_slots n ys x) by lia.
    by rewrite length_snoc.
  - destruct Hwf. by rewrite with_cells_vec by lia.
Qed.

Lemma PopBack_vec b cap xs x :
  wf b cap (xs ++ [x]) → PopBack (vec b cap (xs ++ [x])) = Returned (vec b cap xs) tt.
Proof.
  intros Hwf. unfold PopBack. rewrite slots_vec by done.
  destruct Hwf as [Hle Hb]. rewrite length_snoc in Hle.
  change (size_ (vec b cap (xs ++ [x]))) with (length (xs ++ [x])).
  rewrite length_snoc. rewrite fmap_app, <- app_assoc.
  cbn [std_destroy_n app fmap list_fmap].
  rewrite std_destroy_at_middle by (by rewrite length_fmap).
  replace (Raw :: replicate (cap - S (length xs)) Raw)
    with (@replicate (slot T) (cap - length xs) Raw)
    by (replace (cap - length xs) with (S (cap - S (length xs))) by lia; done).
  unfold vec. norm. by destruct b.
Qed.

(** The algorithm lemmas again, for a block given up to equality. *)

Lemma std_destroy_n_at cs pre xs post i n :
  cs = pre ++ (Obj <$> xs) ++ post → i = length pre → n = length xs →
  std_destroy_n cs i n = Some (pre ++ replicate n Raw ++ post).
Proof. intros -> -> ->. apply std_destroy_n_app. Qed.

Lemma std_uninitialized_value_construct_n_at cs pre n post i :
  cs = pre ++ replicate n Raw ++ post → i = length pre → 0 < n →
  std_uninitialized_value_construct_n cs i n
  = match value_construct with
    | Some d => Returned (pre ++ replicate n (Obj d) ++ post) tt
    | None => Thrown cs
    end.
Proof.
  intros -> -> Hn. rewrite std_uninitialized_value_construct_n_app.
  destruct value_construct; [done|]. destruct n; [lia|done].
Qed.

Lemma transfer_n_at src dst spre xs spost pre post i n j :
  src = spre ++ (Obj <$> xs) ++ spost →
  dst = pre ++ replicate (length xs) Raw ++ post →
  i = length spre → n = length xs → j = length pre →
  transfer_n src i n dst j
  = match snd (transfer_all xs) with
    | Some ys =>
      Returned (spre ++ (Obj <$> fst (transfer_all xs)) ++ spost,
                pre ++ (Obj <$> ys) ++ post) tt
    | None => Thrown (spre ++ (Obj <$> fst (transfer_all xs)) ++ spost, dst)
    end.
Proof. intros -> -> -> -> ->. apply transfer_n_app. Qed.

Lemma value_fill cap ys n :
  length ys < n → n ≤ cap →
  std_uninitialized_value_construct_n ((Obj <$> ys) ++ replicate (cap - length ys) Raw)
    (length ys) (n - length ys)
  = match value_construct with
    | Some d =>
      Returned ((Obj <$> ys ++ replicate (n - length ys) d)
                ++ replicate (cap - length (ys ++ replicate (n - length ys) d)) Raw) tt
    | None => Thrown ((Obj <$> ys) ++ replicate (cap - length ys) Raw)
    end.
Proof.
  intros H1 H2.
  rewrite (std_uninitialized_value_construct_n_at _ (Obj <$> ys) (n - length ys)
             (replicate (cap - n) Raw)).
  - destruct value_construct as [d|]; [|done].
    rewrite fmap_app, fmap_replicate, <- app_assoc, length_app, length_replicate.
    do 4 f_equal. lia.
  - rewrite <- replicate_add. do 2 f_equal. lia.
  - by rewrite length_fmap.
  - lia.
Qed.

Lemma Resize_vec a b cap xs n :
  wf b cap xs →
  Resize a (vec b cap xs) n
  = if n <=? length xs then Returned (a, vec b cap (take n xs)) tt
    else if n <=? cap then
      match value_construct with
      | Some d => Returned (a, vec b cap (xs ++ replicate (n - length xs) d)) tt
      | None => Thrown (a, vec b cap xs)
      end
    else
      match snd (transfer_all xs) with
      | Some ys =>
        match value_construct with
        | Some d => Returned (S a, vec (Some a) n (ys ++ replicate (n - length xs) d)) tt
        | None => Thrown (S a, vec (Some a) n ys)
        end
      | None => Thrown (S a, vec b cap (fst (transfer_all xs)))
      end.
Proof.
  intros Hwf. unfold Resize. rewrite Reserve_vec by done.
  change (size_ (vec b cap xs)) with (length xs).
  destruct (Nat.leb_spec n (length xs)) as [Hle|Hgt].
  - destruct (Nat.ltb_spec (length xs) n); [lia|].
    destruct (Nat.ltb_spec n (length xs)) as [Hlt|].
    + rewrite slots_vec by done.
      rewrite (std_destroy_n_at _ (Obj <$> take n xs) (drop n xs)
                 (replicate (cap - length xs) Raw)).
      * rewrite <- replicate_add.
        rewrite with_slots_vec by (rewrite length_take; destruct Hwf; lia).
        unfold vec. norm. by rewrite length_take_le by lia.
      * by rewrite app_assoc, <- fmap_app, take_drop.
      * rewrite length_fmap, length_take. lia.
      * rewrite length_drop. lia.
    + by rewrite take_ge by lia.
  - destruct (Nat.ltb_spec (length xs) n); [|lia].
    destruct (Nat.leb_spec n cap) as [Hc|Hc].
    + rewrite slots_vec by done. change (size_ (vec b cap xs)) with (length xs).
      rewrite value_fill by done.
      destruct value_construct as [d|].
      * unfold vec. norm. rewrite length_app, length_replicate.
        replace (length xs + (n - length xs)) with n by lia. by destruct b.
      * by rewrite with_cells_vec.
    + destruct (snd (transfer_all xs)) as [ys|] eqn:Hys; [|done].
      apply transfer_all_length_snd in Hys.
      rewrite slots_vec by (split; [lia|done]).
      change (size_ (vec (Some a) n ys)) with (length ys).
      rewrite value_fill by lia.
      destruct value_construct as [d|].
      * rewrite Hys. unfold vec. norm. rewrite length_app, length_replicate, Hys.
        replace (length xs + (n - length xs)) with n by lia. done.
      * by rewrite with_cells_vec.
Qed.

(* closes an equation between two lists that differ in bracketing *)
Ltac lists :=
  repeat first [ rewrite <- app_assoc | rewrite fmap_app
               | progress cbn [app fmap list_fmap] ];
  try done.

Ltac len :=
  repeat first [ rewrite length_app | rewrite length_fmap | rewrite length_replicate
               | rewrite length_rev | progress cbn [length] ];
  lia.

Lemma std_move_backward_at cs pre ys d post first last d_last :
  cs = pre ++ (Obj <$> ys) ++ Obj d :: post →
  first = length pre → last = length pre + length ys → d_last = S last →
  std_move_backward cs first last d_last
  = if snd (shift_right ys d)
    then Returned (pre ++ (Obj <$> fst (shift_right ys d)) ++ post) tt
    else Thrown (pre ++ (Obj <$> fst (shift_right ys d)) ++ post).
Proof.
  intros -> -> -> ->. unfold std_move_backward, shift_right.
  destruct (Nat.ltb_spec (length pre + length ys) (length pre)); [lia|].
  replace (length pre + length ys - length pre) with (length (rev ys)) by len.
  replace (length pre + length ys) with (length pre + length (rev ys)) by len.
  rewrite <- (rev_involutive ys) at 1.
  apply std_move_backward_n_app.
Qed.

Lemma std_move_at cs pre d ys post first last d_first :
  cs = pre ++ Obj d :: (Obj <$> ys) ++ post →
  d_first = length pre → first = S (length pre) → last = S (length pre) + length ys →
  std_move cs first last d_first
  = if snd (shift_left d ys)
    then Returned (pre ++ (Obj <$> fst (shift_left d ys)) ++ post) tt
    else Thrown (pre ++ (Obj <$> fst (shift_left d ys)) ++ post).
Proof.
  intros -> -> -> ->. unfold std_move.
  destruct (Nat.ltb_spec (S (length pre) + length ys) (S (length pre))); [lia|].
  replace (S (length pre) + length ys - S (length pre)) with (length ys) by lia.
  apply std_move_n_app.
Qed.

Lemma shift_right_rev_length rys d : length (fst (shift_right_rev rys d)) = S (length rys).
Proof.
  revert d. induction rys as [|y rys IH]; intros d; [done|]. simpl.
  destruct (move_assign d y) as [[d' y']|[d' y']]; simpl.
  - rewrite length_app, IH. simpl. lia.
  - rewrite length_app, length_rev. simpl. lia.
Qed.

Lemma shift_right_length ys d : length (fst (shift_right ys d)) = S (length ys).
Proof. unfold shift_right. by rewrite shift_right_rev_length, length_rev. Qed.

Lemma shift_left_length d ys : length (fst (shift_left d ys)) = S (length ys).
Proof.
  revert d. induction ys as [|y ys IH]; intros d; [done|]. simpl.
  destruct (move_assign d y) as [[d' y']|[d' y']]; simpl; by rewrite ?IH.
Qed.

Lemma shift_right_rev_regular rys d :
  Forall move_assignable rys → ∃ r, shift_right_rev rys d = (r :: rev rys, true).
Proof.
  intros H. revert d. induction H as [|y rys Hy _ IH]; intros d; [by exists d|].
  simpl. destruct (Hy d) as [r ->]. destruct (IH r) as [r' ->]. by exists r'.
Qed.

Lemma shift_right_regular ys d :
  Forall move_assignable ys → ∃ r, shift_right ys d = (r :: ys, true).
Proof.
  intros H. unfold shift_right.
  destruct (shift_right_rev_regular (rev ys) d) as [r Hr]; [by apply Forall_rev|].
  exists r. by rewrite Hr, rev_involutive.
Qed.

Lemma shift_left_regular d ys :
  Forall move_assignable ys → ∃ r, shift_left d ys = (ys ++ [r], true).
Proof.
  intros H. revert d. induction H as [|y ys Hy _ IH]; intros d; [by exists d|].
  simpl. destruct (Hy d) as [r ->]. destruct (IH r) as [r' ->]. by exists r'.
Qed.

Lemma emplace_in_place_throw v index args :
  construct_from args = None → emplace_in_place v index args = Thrown v.
Proof. intros H. unfold emplace_in_place. by rewrite H. Qed.

Lemma emplace_in_place_ok b cap xs1 xs2 l args tmp y t sh t' r :
  wf b cap (xs1 ++ xs2 ++ [l]) → length (xs1 ++ xs2 ++ [l]) < cap →
  construct_from args = Some tmp →
  fst (move_construct l) = Some y →
  shift_right xs2 (snd (move_construct l)) = (t :: sh, true) →
  move_assign t tmp = Assigned (t', r) →
  emplace_in_place (vec b cap (xs1 ++ xs2 ++ [l])) (length xs1) args
  = Returned (vec b cap (xs1 ++ t' :: sh ++ [y])) {| block_of := b; offset := length xs1 |}.
Proof.
  intros Hwf Hlt Hargs Hy Hsh Hasg.
  pose proof (shift_right_length xs2 (snd (move_construct l))) as Hshl.
  rewrite Hsh in Hshl. simpl in Hshl. injection Hshl as Hshl.
  unfold emplace_in_place, RawMemory_plus, RawMemory_index.
  rewrite Hargs, slots_vec by done.
  change (capacity_ (data_ (vec b cap (xs1 ++ xs2 ++ [l])))) with cap.
  change (size_ (vec b cap (xs1 ++ xs2 ++ [l]))) with (length (xs1 ++ xs2 ++ [l])).
  assert (length (xs1 ++ xs2 ++ [l]) = S (length xs1 + length xs2)) as Hsz by len.
  rewrite Hsz in *.
  destruct (Nat.leb_spec (S (length xs1 + length xs2)) cap); [|lia].
  destruct (Nat.ltb_spec (length xs1 + length xs2) cap); [|lia].
  destruct (Nat.ltb_spec (length xs1) cap); [|lia].
  norm.
  replace (cap - S (length xs1 + length xs2))
    with (S (cap - S (S (length xs1 + length xs2)))) by lia.
  set (raws := replicate (cap - S (S (length xs1 + length xs2))) (@Raw T)).
  cbn [replicate]. fold raws.
  assert ((Obj <$> xs1 ++ xs2 ++ [l]) ++ Raw :: raws
          = ((Obj <$> xs1) ++ (Obj <$> xs2)) ++ Obj l :: Raw :: raws) as ->.
  { rewrite !fmap_app, <- !app_assoc. done. }
  rewrite list_lookup_middle by len.
  rewrite Hy.
  replace (length xs1 + length xs2) with (length ((Obj <$> xs1) ++ (Obj <$> xs2))) at 1
    by len.
  rewrite insert_middle.
  rewrite (snoc_app _ (Raw :: raws)).
  rewrite construct_at_middle by len.
  rewrite (std_move_backward_at _ (Obj <$> xs1) xs2 (snd (move_construct l))
             (Obj y :: raws)); [|by rewrite <- !app_assoc|len..].
  rewrite Hsh. cbn [fst snd fmap list_fmap app].
  rewrite list_lookup_middle by len.
  rewrite Hasg.
  rewrite <- (length_fmap Obj xs1) at 1. rewrite insert_middle.
  f_equal.
  - unfold vec. norm.
    assert (length (xs1 ++ t' :: sh ++ [y]) = S (S (length xs1 + length xs2))) as -> by len.
    fold raws.
    assert ((Obj <$> xs1) ++ Obj t' :: (Obj <$> sh) ++ Obj y :: raws
            = (Obj <$> xs1 ++ t' :: sh ++ [y]) ++ raws) as ->.
    { by lists. }
    by destruct b.
  - unfold begin. norm. unfold vec. norm. by destruct b.
Qed.


Lemma emplace_realloc_throw a v index args :
  construct_from args = None →
  emplace_realloc a v index args
  = Thrown (fst (RawMemory_new (T:=T) (if size_ v =? 0 then 1 else size_ v * 2) a), v).
Proof.
  intros H. unfold emplace_realloc. rewrite H.
  by destruct (RawMemory_new _ a).
Qed.

Lemma emplace_realloc_ok a b cap xs1 xs2 args x ys1 ys2 :
  wf b cap (xs1 ++ xs2) →
  construct_from args = Some x →
  snd (transfer_all xs1) = Some ys1 →
  snd (transfer_all xs2) = Some ys2 →
  emplace_realloc a (vec b cap (xs1 ++ xs2)) (length xs1) args
  = Returned (S a, vec (Some a) (if length (xs1 ++ xs2) =? 0 then 1
                                 else length (xs1 ++ xs2) * 2) (ys1 ++ x :: ys2))
      {| block_of := Some a; offset := length xs1 |}.
Proof.
  intros Hwf Hargs H1 H2.
  pose proof (transfer_all_length_fst xs1) as Hf1.
  pose proof (transfer_all_length_fst xs2) as Hf2.
  pose proof (transfer_all_length_snd _ _ H1) as Hs1.
  pose proof (transfer_all_length_snd _ _ H2) as Hs2.
  unfold emplace_realloc. rewrite slots_vec by done.
  change (size_ (vec b cap (xs1 ++ xs2))) with (length (xs1 ++ xs2)).
  set (n := if length (xs1 ++ xs2) =? 0 then 1 else length (xs1 ++ xs2) * 2).
  assert (length (xs1 ++ xs2) < n) as Hn
    by (unfold n; destruct (length (xs1 ++ xs2)); simpl; lia).
  rewrite length_app in Hn.
  rewrite RawMemory_new_pos by lia. rewrite Hargs. norm.
  set (rest := replicate (n - length xs1 - length xs2 - 1) (@Raw T)).
  set (old_rest := replicate (cap - length (xs1 ++ xs2)) (@Raw T)).
  assert (replicate n Raw
          = replicate (length xs1) Raw ++ Raw :: replicate (length xs2) Raw ++ rest) as ->.
  { unfold rest.
    change (Raw :: replicate (length xs2) (@Raw T) ++
            replicate (n - length xs1 - length xs2 - 1) Raw)
      with (replicate (S (length xs2)) (@Raw T) ++
            replicate (n - length xs1 - length xs2 - 1) Raw).
    rewrite <- !replicate_add. f_equal. lia. }
  rewrite construct_at_middle by len.
  rewrite fmap_app, <- app_assoc.
  pose proof (transfer_app xs1 ((Obj <$> xs2) ++ old_rest) []
                (Obj x :: replicate (length xs2) Raw ++ rest)) as Ht.
  cbn [app length] in Ht. rewrite Ht, H1. clear Ht.
  cbn [try_catch_all].
  rewrite (transfer_n_at _ _ (Obj <$> fst (transfer_all xs1)) xs2 old_rest
             ((Obj <$> ys1) ++ [Obj x]) rest); [|done|by lists|len..].
  rewrite H2. cbn [try_catch_all].
  rewrite (std_destroy_n_at _ [] (fst (transfer_all xs1) ++ fst (transfer_all xs2))
             old_rest); [|by lists|len..].
  f_equal.
  unfold vec. norm.
  assert (length (ys1 ++ x :: ys2) = S (length (xs1 ++ xs2))) as -> by len.
  assert (n - S (length (xs1 ++ xs2)) = n - length xs1 - length xs2 - 1) as -> by len.
  fold rest. do 4 f_equal. by lists.
Qed.

Lemma Erase_vec b cap xs1 d ys :
  wf b cap (xs1 ++ d :: ys) →
  Erase (vec b cap (xs1 ++ d :: ys)) {| block_of := b; offset := length xs1 |}
  = if snd (shift_left d ys)
    then Returned (vec b cap (xs1 ++ take (length ys) (fst (shift_left d ys))))
           {| block_of := b; offset := length xs1 |}
    else Thrown (vec b cap (xs1 ++ fst (shift_left d ys))).
Proof.
  intros Hwf.
  pose proof (shift_left_length d ys) as Hl.
  unfold Erase, distance, cbegin.
  assert (block_of (GetAddress (data_ (vec b cap (xs1 ++ d :: ys)))) = b) as Hb
    by (unfold vec; norm; by destruct b).
  rewrite Hb. norm.
  destruct (decide (b = b)); [|done]. cbn [Nat.leb].
  rewrite Nat.sub_0_r, slots_vec by done.
  change (size_ (vec b cap (xs1 ++ d :: ys))) with (length (xs1 ++ d :: ys)).
  set (rest := replicate (cap - length (xs1 ++ d :: ys)) (@Raw T)).
  rewrite (std_move_at _ (Obj <$> xs1) d ys rest); [|by lists|len..].
  destruct (snd (shift_left d ys)) eqn:Hok.
  - destruct (fst (shift_left d ys)) as [|z zs _] eqn:Hzs using rev_ind; [done|].
    rewrite length_snoc in Hl. injection Hl as Hl.
    rewrite take_app_length' by done.
    assert (with_cells (vec b cap (xs1 ++ d :: ys))
              ((Obj <$> xs1) ++ (Obj <$> zs ++ [z]) ++ rest)
            = vec b cap ((xs1 ++ zs) ++ [z])) as ->.
    { unfold with_cells, vec, rest. norm.
      assert (length ((xs1 ++ zs) ++ [z]) = length (xs1 ++ d :: ys)) as -> by len.
      destruct b; norm; do 3 f_equal; by lists. }
    rewrite PopBack_vec.
    + f_equal. unfold begin, vec. norm. by destruct b.
    + destruct Hwf as [Hle ?]. split; [|done]. revert Hle. len.
  - f_equal. unfold with_cells, vec, rest. norm.
    assert (length (xs1 ++ (shift_left d ys).1) = length (xs1 ++ d :: ys)) as -> by len.
    destruct b; norm; do 3 f_equal; by lists.
Qed.

Lemma PushBack_forward_vec a b cap xs args :
  wf b cap xs →
  PushBack_forward a (vec b cap xs) args
  = match construct_from args with
    | None => Thrown (if length xs <? cap then a else S a, vec b cap xs)
    | Some x =>
      if length xs <? cap then Returned (a, vec b cap (xs ++ [x])) tt
      else
        match snd (transfer_all xs) with
        | Some ys =>
          Returned (S a, vec (Some a) (if length xs =? 0 then 1 else length xs * 2)
                           (ys ++ [x])) tt
        | None => Thrown (S a, vec b cap (fst (transfer_all xs)))
        end
    end.
Proof.
  intros Hwf. unfold PushBack_forward.
  change (size_ (vec b cap xs)) with (length xs).
  change (Capacity (vec b cap xs)) with cap.
  destruct (Nat.ltb_spec (length xs) cap).
  - by rewrite append_in_place_vec.
  - by rewrite append_realloc_vec.
Qed.

Lemma PushBack_vec a b cap xs value :
  PushBack a (vec b cap xs) value = PushBack_forward a (vec b cap xs) (by_copy value).
Proof. done. Qed.

Lemma EmplaceBack_vec a b cap xs args :
  wf b cap xs →
  EmplaceBack a (vec b cap xs) args
  = match PushBack_forward a (vec b cap xs) args with
    | Returned (a', v') _ =>
      Returned (a', v') {| block_of := block_of (begin v'); offset := length xs |}
    | Thrown s => Thrown s
    | Undefined => Undefined
    end.
Proof.
  intros Hwf. unfold EmplaceBack. fold (PushBack_forward a (vec b cap xs) args).
  rewrite PushBack_forward_vec by done.
  destruct (construct_from args) as [x|]; [|done].
  destruct (length xs <? cap).
  - unfold ptr_pred, vec. norm. by rewrite length_snoc.
  - destruct (snd (transfer_all xs)) as [ys|] eqn:Hys; [|done].
    apply transfer_all_length_snd in Hys.
    unfold ptr_pred, vec. norm. by rewrite length_snoc, Hys.
Qed.

Lemma begin_vec b cap xs : begin (vec b cap xs) = {| block_of := b; offset := 0 |}.
Proof. unfold begin, vec. norm. by destruct b. Qed.

Lemma end_vec b cap xs : end_ (vec b cap xs) = {| block_of := b; offset := length xs |}.
Proof. unfold end_, vec. norm. by destruct b. Qed.

Lemma cend_vec b cap xs : cend (vec b cap xs) = {| block_of := b; offset := length xs |}.
Proof. unfold cend, vec. norm. by destruct b. Qed.

(** Emplace splits into its three paths. *)
Lemma Emplace_end a b cap xs args :
  wf b cap xs →
  Emplace a (vec b cap xs) {| block_of := b; offset := length xs |} args
  = EmplaceBack a (vec b cap xs) args.
Proof.
  intros Hwf. unfold Emplace. rewrite cend_vec.
  destruct (decide _) as [_|]; [|done].
  rewrite EmplaceBack_vec by done.
  rewrite PushBack_forward_vec by done.
  destruct (construct_from args) as [x|]; [|done].
  destruct (length xs <? cap).
  - rewrite end_vec, begin_vec. unfold ptr_pred. norm. by rewrite length_snoc.
  - destruct (snd (transfer_all xs)) as [ys|] eqn:Hys; [|done].
    apply transfer_all_length_snd in Hys.
    rewrite end_vec, begin_vec. unfold ptr_pred. norm.
    by rewrite length_snoc, Hys.
Qed.

Lemma Emplace_inner a b cap xs p args :
  p < length xs →
  Emplace a (vec b cap xs) {| block_of := b; offset := p |} args
  = if length xs <? cap then
      match emplace_in_place (vec b cap xs) p args with
      | Returned v' q => Returned (a, v') q
      | Thrown v' => Thrown (a, v')
      | Undefined => Undefined
      end
    else emplace_realloc a (vec b cap xs) p args.
Proof.
  intros Hp. unfold Emplace. rewrite cend_vec.
  destruct (decide _) as [[=]|_]; [lia|].
  unfold distance, cbegin.
  assert (block_of (GetAddress (data_ (vec b cap xs))) = b) as ->
    by (unfold vec; norm; by destruct b).
  norm. destruct (decide (b = b)); [|done]. cbn [Nat.leb].
  by rewrite Nat.sub_0_r.
Qed.

(** Emplace when the values involved are well behaved. *)
Lemma Emplace_regular a b cap xs1 xs2 args x :
  wf b cap (xs1 ++ xs2) →
  construct_from args = Some x → move_assignable x →
  Forall regular (xs1 ++ xs2) →
  ∃ a' b' cap',
    Emplace a (vec b cap (xs1 ++ xs2)) {| block_of := b; offset := length xs1 |} args
    = Returned (a', vec b' cap' (xs1 ++ x :: xs2)) {| block_of := b'; offset := length xs1 |}
    ∧ wf b' cap' (xs1 ++ x :: xs2)
    ∧ (length (xs1 ++ xs2) < cap → a' = a ∧ b' = b ∧ cap' = cap).
Proof.
  intros Hwf Hargs Hx Hreg.
  apply Forall_app in Hreg as Hreg'. destruct Hreg' as [Hr1 Hr2].
  destruct xs2 as [|l xs2 _] using rev_ind.
  - (* at the end *)
    rewrite app_nil_r in *.
    rewrite Emplace_end, EmplaceBack_vec, PushBack_forward_vec by done.
    rewrite Hargs, transfer_all_regular by done.
    destruct (Nat.ltb_spec (length xs1) cap).
    + exists a, b, cap. rewrite begin_vec. norm.
      split; [done|]. split; [|done]. destruct Hwf. split; [len|done].
    + exists (S a), (Some a), (if length xs1 =? 0 then 1 else length xs1 * 2).
      rewrite begin_vec. norm.
      split; [done|]. split; [|lia]. split; [|done].
      rewrite length_snoc. destruct (length xs1); simpl; lia.
  - rewrite Emplace_inner by len.
    destruct (Nat.ltb_spec (length (xs1 ++ xs2 ++ [l])) cap).
    + apply Forall_app in Hr2 as [Hr2 Hl]. rewrite Forall_singleton in Hl.
      destruct Hl as (_ & Hl & _ & _).
      destruct (shift_right_regular xs2 (snd (move_construct l))) as [t Hsh].
      { eapply Forall_impl; [done|]. by intros ? (_ & _ & _ & ?). }
      destruct (Hx t) as [r Hr].
      erewrite emplace_in_place_ok by done.
      exists a, b, cap. split; [done|]. split; [|done].
      destruct Hwf. split; [|done]. revert H. len.
    + erewrite emplace_realloc_ok; [| done | done | by apply transfer_all_regular..].
      eexists _, _, _. split; [done|]. split; [|lia]. split; [|done].
      assert (length (xs1 ++ x :: xs2 ++ [l]) = S (length (xs1 ++ xs2 ++ [l]))) as -> by len.
      destruct (length (xs1 ++ xs2 ++ [l])); simpl; lia.
Qed.

Lemma std_uninitialized_copy_n_at src dst spre xs spost pre post i n j :
  src = spre ++ (Obj <$> xs) ++ spost →
  dst = pre ++ replicate (length xs) Raw ++ post →
  i = length spre → n = length xs → j = length pre →
  std_uninitialized_copy_n src i n dst j
  = match copy_all xs with
    | Some ys => Returned (pre ++ (Obj <$> ys) ++ post) tt
    | None => Thrown dst
    end.
Proof. intros -> -> -> -> ->. apply std_uninitialized_copy_n_app. Qed.

Lemma std_copy_n_at src dst spre ss spost pre ds post i n j :
  src = spre ++ (Obj <$> ss) ++ spost →
  dst = pre ++ (Obj <$> ds) ++ post →
  length ds = length ss →
  i = length spre → n = length ss → j = length pre →
  std_copy_n src i n dst j
  = if snd (assign_all ds ss)
    then Returned (pre ++ (Obj <$> fst (assign_all ds ss)) ++ post) tt
    else Thrown (pre ++ (Obj <$> fst (assign_all ds ss)) ++ post).
Proof. intros -> -> ? -> -> ->. by apply std_copy_n_app. Qed.

Lemma assign_all_length ds ss : length (fst (assign_all ds ss)) = length ds.
Proof.
  revert ss. induction ds as [|d ds IH]; intros [|s ss]; try done. simpl.
  destruct (copy_assign d s); simpl; by rewrite ?IH.
Qed.

Lemma assign_all_regular ds ss :
  length ds = length ss → Forall copy_assignable ss → assign_all ds ss = (ss, true).
Proof.
  intros Hlen H. revert ds Hlen.
  induction H as [|s ss Hs _ IH]; intros [|d ds] Hlen; simplify_eq/=; [done|].
  by rewrite Hs, IH.
Qed.

Lemma Vector_sized_eq n a :
  Vector_sized n a
  = match n with
    | 0 => Returned a (vec None 0 [])
    | S _ =>
      match value_construct with
      | Some d => Returned (S a) (vec (Some a) n (replicate n d))
      | None => Thrown (S a)
      end
    end.
Proof.
  unfold Vector_sized. destruct n as [|k]; [done|].
  rewrite RawMemory_new_pos by done. norm.
  rewrite (std_uninitialized_value_construct_n_at _ [] (S k) []);
    [|by rewrite app_nil_r|done|lia].
  destruct value_construct as [d|]; [|done].
  unfold vec. norm. rewrite length_replicate, Nat.sub_diag, fmap_replicate.
  by rewrite !app_nil_r.
Qed.

Lemma Vector_copy_vec b cap xs a :
  wf b cap xs →
  Vector_copy (vec b cap xs) a
  = match xs with
    | [] => Returned a (vec None 0 [])
    | _ :: _ =>
      match copy_all xs with
      | Some ys => Returned (S a) (vec (Some a) (length xs) ys)
      | None => Thrown (S a)
      end
    end.
Proof.
  intros Hwf. unfold Vector_copy. rewrite slots_vec by done.
  change (size_ (vec b cap xs)) with (length xs).
  destruct xs as [|x xs]; [done|].
  rewrite RawMemory_new_pos by done. norm.
  set (l := x :: xs).
  rewrite (std_uninitialized_copy_n_at _ _ [] l (replicate (cap - length l) Raw) [] []);
    [|done|by rewrite app_nil_r|done..].
  destruct (copy_all l) as [ys|] eqn:Hys; [|done].
  apply copy_all_length in Hys.
  unfold vec. norm. rewrite Hys, Nat.sub_diag. by rewrite !app_nil_r.
Qed.

Lemma Vector_destroy_vec b cap xs : wf b cap xs → Vector_destroy (vec b cap xs) = Some tt.
Proof.
  intros Hwf. unfold Vector_destroy. rewrite slots_vec by done.
  change (size_ (vec b cap xs)) with (length xs).
  by rewrite (std_destroy_n_at _ [] xs (replicate (cap - length xs) Raw)).
Qed.

Lemma Swap_eq (t o : Vector (T:=T)) : Swap t o = (o, t).
Proof. by destruct t as [[]], o as [[]]. Qed.

Lemma Vector_move_eq (o : Vector (T:=T)) : Vector_move o = (o, Vector_default).
Proof. by destruct o as [[]]. Qed.

Lemma assign_copy_vec this rhs w bt capt ts br capr rs :
  this ≠ rhs →
  objects w !! this = Some (vec bt capt ts) →
  objects w !! rhs = Some (vec br capr rs) →
  wf bt capt ts → wf br capr rs →
  assign_copy this rhs w
  = if capt <? length rs then
      match copy_all rs with
      | Some ys =>
        Returned (put this (vec (Some (next_block w)) (length rs) ys)
                    (S (next_block w)) w) tt
      | None => Thrown {| next_block := S (next_block w); objects := objects w |}
      end
    else if length rs <? length ts then
      if snd (assign_all (take (length rs) ts) rs)
      then Returned (put this (vec bt capt (fst (assign_all (take (length rs) ts) rs)))
                       (next_block w) w) tt
      else Thrown (put this (vec bt capt (fst (assign_all (take (length rs) ts) rs)
                                          ++ drop (length rs) ts))
                     (next_block w) w)
    else
      if snd (assign_all ts (take (length ts) rs)) then
        match copy_all (drop (length ts) rs) with
        | Some ys =>
          Returned (put this (vec bt capt (fst (assign_all ts (take (length ts) rs)) ++ ys))
                      (next_block w) w) tt
        | None =>
          Thrown (put this (vec bt capt (fst (assign_all ts (take (length ts) rs))))
                    (next_block w) w)
        end
      else Thrown (put this (vec bt capt (fst (assign_all ts (take (length ts) rs))))
                     (next_block w) w).
Proof.
  intros Hne Ht Hr Hwt Hwr. unfold assign_copy. rewrite Ht, Hr.
  destruct (decide (this ≠ rhs)); [|done].
  change (capacity_ (data_ (vec bt capt ts))) with capt.
  change (size_ (vec bt capt ts)) with (length ts).
  change (size_ (vec br capr rs)) with (length rs).
  rewrite !slots_vec by done.
  destruct Hwt as [Hlt Hbt]. destruct Hwr as [Hlr Hbr].
  set (trest := replicate (capt - length ts) (@Raw T)).
  set (rrest := replicate (capr - length rs) (@Raw T)).
  destruct (Nat.ltb_spec capt (length rs)) as [Hc|Hc].
  - rewrite Vector_copy_vec by done.
    destruct rs as [|r0 rs]; [simpl in Hc; lia|].
    destruct (copy_all (r0 :: rs)) as [ys|]; [|done].
    rewrite Swap_eq, Vector_destroy_vec by done. done.
  - destruct (Nat.ltb_spec (length rs) (length ts)) as [Hs|Hs].
    + pose proof (assign_all_length (take (length rs) ts) rs) as Hal.
      rewrite length_take_le in Hal by lia.
      rewrite (std_copy_n_at _ _ [] rs rrest [] (take (length rs) ts)
                 ((Obj <$> drop (length rs) ts) ++ trest));
        [|done| |by rewrite length_take_le by lia|done..].
      2:{ cbn [app]. by rewrite app_assoc, <- fmap_app, take_drop. }
      destruct (snd (assign_all (take (length rs) ts) rs)).
      * cbn [app].
        rewrite (std_destroy_n_at _ (Obj <$> fst (assign_all (take (length rs) ts) rs))
                   (drop (length rs) ts) trest); [|done|len|by rewrite length_drop].
        do 2 f_equal. unfold vec, trest. normw. rewrite Hal.
        rewrite <- replicate_add.
        replace (length ts - length rs + (capt - length ts)) with (capt - length rs) by lia.
        by destruct bt.
      * cbn [app]. do 2 f_equal. unfold with_cells, vec, trest. normw.
        assert (length (fst (assign_all (take (length rs) ts) rs) ++ drop (length rs) ts)
                = length ts) as -> by (rewrite length_app, Hal, length_drop; lia).
        destruct bt; normw; do 3 f_equal; by lists.
    + pose proof (assign_all_length ts (take (length ts) rs)) as Hal.
      rewrite (std_copy_n_at _ _ [] (take (length ts) rs)
                 ((Obj <$> drop (length ts) rs) ++ rrest) [] ts trest);
        [| |done|by rewrite length_take_le by lia|done
         |by rewrite length_take_le by lia|done].
      2:{ cbn [app]. by rewrite app_assoc, <- fmap_app, take_drop. }
      cbn [app].
      destruct (snd (assign_all ts (take (length ts) rs))).
      * rewrite (std_uninitialized_copy_n_at _ _ (Obj <$> take (length ts) rs)
                   (drop (length ts) rs) rrest
                   (Obj <$> fst (assign_all ts (take (length ts) rs)))
                   (replicate (capt - length rs) Raw)).
        -- destruct (copy_all (drop (length ts) rs)) as [ys|] eqn:Hys.
           ++ apply copy_all_length in Hys. rewrite length_drop in Hys.
              do 2 f_equal. unfold vec. normw.
              rewrite length_app, Hal, Hys.
              replace (length ts + (length rs - length ts)) with (length rs) by lia.
              destruct bt; normw; do 3 f_equal; by lists.
           ++ do 2 f_equal. unfold with_cells, vec, trest. normw. rewrite Hal.
              by destruct bt.
        -- by rewrite app_assoc, <- fmap_app, take_drop.
        -- unfold trest. rewrite <- replicate_add, length_drop. do 2 f_equal. lia.
        -- rewrite length_fmap, length_take_le; lia.
        -- by rewrite length_drop.
        -- by rewrite length_fmap.
      * do 2 f_equal. unfold with_cells, vec, trest. normw. rewrite Hal. by destruct bt.
Qed.

Lemma holds_cases v xs :
  holds v xs →
  ∃ b cap, v = vec b cap xs ∧ wf b cap xs ∧ b = block_of (begin v) ∧ cap = Capacity v.
Proof.
  intros H. exists (base <$> buffer_ (data_ v)), (Capacity v).
  split; [by apply holds_eq|]. split; [by apply holds_wf|]. done.
Qed.

Lemma ptr_add_begin_vec b cap xs p :
  ptr_add (begin (vec b cap xs)) p = {| block_of := b; offset := p |}.
Proof. by rewrite begin_vec. Qed.

Lemma deref_vec b cap xs p :
  wf b cap xs → deref (vec b cap xs) {| block_of := b; offset := p |} = xs !! p.
Proof.
  intros Hwf. unfold deref. rewrite begin_vec, slots_vec by done. norm.
  destruct (decide (b = b)); [|done].
  destruct (xs !! p) as [x|] eqn:Hx.
  - rewrite lookup_app_l by (rewrite length_fmap; by eapply lookup_lt_Some).
    by rewrite list_lookup_fmap, Hx.
  - apply lookup_ge_None in Hx.
    rewrite lookup_app_r by (by rewrite length_fmap).
    destruct (replicate _ _ !! _) as [c|] eqn:Hc; [|done].
    by apply lookup_replicate in Hc as [-> _].
Qed.

(** ** The claims on a single vector *)

(** C2: with the duplicate strategy (the move constructor is not
    noexcept and the copy constructor exists), a reallocating PushBack or
    EmplaceBack in which the construction of the new element throws, or
    the copy of an element into the new buffer throws, exits by an
    exception and leaves the vector as it was: same size, same capacity,
    same elements. *)
Theorem append_strong_guarantee a v xs args :
  is_nothrow_move_constructible = false → is_copy_constructible = true →
  holds v xs → size_ v = Capacity v →
  construct_from args = None ∨ copy_all xs = None →
  ∃ a',
    EmplaceBack a v args = Thrown (a', v)
    ∧ PushBack_forward a v args = Thrown (a', v)
    ∧ (∀ value, args = by_copy value → PushBack a v value = Thrown (a', v)).
Proof.
  intros Hmove Hcopy Hv Hfull Hfail.
  assert (relocate = false) as Hrel by (unfold relocate; by rewrite Hmove, Hcopy).
  destruct (holds_cases _ _ Hv) as (b & cap & -> & Hwf & _ & _).
  change (length xs = cap) in Hfull.
  assert (PushBack_forward a (vec b cap xs) args = Thrown (S a, vec b cap xs)) as Hpush.
  { rewrite PushBack_forward_vec by done.
    destruct (Nat.ltb_spec (length xs) cap); [lia|].
    destruct (construct_from args) as [x|]; [|done].
    destruct Hfail as [|Hfail]; [done|].
    unfold transfer_all. rewrite Hrel. simpl. by rewrite Hfail. }
  exists (S a). split; [|split].
  - rewrite EmplaceBack_vec by done. by rewrite Hpush.
  - done.
  - intros value ->. by rewrite PushBack_vec.
Qed.

Lemma growth_ge n : n ≤ growth n.
Proof.
  unfold growth. destruct n as [|[|n]]; [done|simpl; lia|].
  cbn [Nat.eqb]. apply Nat.log2_up_spec. lia.
Qed.

Lemma growth_step n :
  growth (S n) = if n <? growth n then growth n else if n =? 0 then 1 else n * 2.
Proof.
  pose proof (growth_ge n) as Hge. unfold growth in *.
  destruct n as [|n]; [done|]. cbn [Nat.eqb] in *.
  destruct (Nat.ltb_spec (S n) (2 ^ Nat.log2_up (S n))) as [Hlt|Hle].
  - f_equal. destruct n as [|n]; [simpl in Hlt; lia|].
    apply Nat.log2_up_unique.
    + destruct (Nat.log2_up (S (S n))) eqn:HL; [simpl in Hlt; lia|lia].
    + pose proof (Nat.log2_up_spec (S (S n))). lia.
  - assert (S n = 2 ^ Nat.log2_up (S n)) as Heq by lia.
    rewrite (Nat.log2_up_unique (S (S n)) (S (Nat.log2_up (S n)))).
    + rewrite Nat.pow_succ_r'. lia.
    + lia.
    + cbn [Nat.pred]. rewrite Nat.pow_succ_r'. lia.
Qed.

Lemma append_run_growth l a b cap xs caps :
  cap = growth (length xs) → wf b cap xs →
  append_run l a (vec b cap xs) = Some caps →
  caps = growth <$> seq (length xs) (S (length l)).
Proof.
  revert a b cap xs caps. induction l as [|args l IH]; intros a b cap xs caps Hcap Hwf.
  { simpl. intros [= <-]. by rewrite Hcap. }
  cbn [append_run]. rewrite EmplaceBack_vec, PushBack_forward_vec by done.
  change (Capacity (vec b cap xs)) with cap.
  pose proof (growth_step (length xs)) as Hstep.
  pose proof (growth_ge (length xs)) as Hge.
  rewrite <- Hcap in Hstep, Hge.
  destruct (construct_from args) as [x|]; [|done].
  destruct (Nat.ltb_spec (length xs) cap) as [Hlt|Hfull].
  - destruct (append_run _ _ _) as [caps'|] eqn:Hrun; [|done].
    intros [= <-]. cbn [fmap list_fmap seq length]. rewrite <- Hcap. f_equal.
    rewrite <- (length_snoc xs x).
    apply (IH a b cap); [by rewrite length_snoc| |done].
    destruct Hwf. split; [len|done].
  - destruct (snd (transfer_all xs)) as [ys|] eqn:Hys; [|done].
    apply transfer_all_length_snd in Hys.
    destruct (append_run _ _ _) as [caps'|] eqn:Hrun; [|done].
    intros [= <-]. cbn [fmap list_fmap seq length]. rewrite <- Hcap. f_equal.
    assert (length (ys ++ [x]) = S (length xs)) as Hl by len.
    rewrite <- Hl.
    apply (IH (S a) (Some a) (if length xs =? 0 then 1 else length xs * 2));
      [by rewrite Hl| |done].
    split; [|done]. rewrite Hl. destruct (length xs); simpl; lia.
Qed.

Lemma append_effect_vec a b cap xs args :
  wf b cap xs →
  match PushBack_forward a (vec b cap xs) args with
  | Returned (a', v') _ => append_effect (vec b cap xs) a a' v'
  | _ => True
  end.
Proof.
  intros Hwf. rewrite PushBack_forward_vec by done. unfold append_effect.
  change (size_ (vec b cap xs)) with (length xs).
  change (Capacity (vec b cap xs)) with cap.
  destruct (construct_from args) as [x|]; [|done].
  destruct (Nat.ltb_spec (length xs) cap) as [Hlt|Hfull].
  - by rewrite !begin_vec.
  - destruct (snd (transfer_all xs)) as [ys|]; [|done].
    destruct Hwf as [Hle _].
    assert (length xs = cap) as <- by lia.
    split; [done|]. split; [done|]. change (Capacity (vec (Some a) ?c _)) with c.
    destruct (length xs); simpl; lia.
Qed.

(** C4: an append (EmplaceBack, PushBack) that finds spare capacity
    allocates nothing and keeps its buffer; otherwise the vector is full
    and the new capacity is 1 if the old one was 0 and twice the old one
    if not.  Hence the capacities along successive appends to an empty
    vector are 0, 1, 2, 4, 4, 8, ...: after k appends the least power of
    two that is at least k. *)
Theorem append_growth l caps a v xs args value :
  append_run l 0 Vector_default = Some caps →
  holds v xs →
  caps = growth <$> seq 0 (S (length l))
  ∧ match EmplaceBack a v args with
    | Returned (a', v') _ => append_effect v a a' v'
    | _ => True
    end
  ∧ match PushBack a v value with
    | Returned (a', v') _ => append_effect v a a' v'
    | _ => True
    end
  ∧ match PushBack_forward a v args with
    | Returned (a', v') _ => append_effect v a a' v'
    | _ => True
    end.
Proof.
  intros Hrun Hv. split.
  { apply (append_run_growth l 0 None 0 [] caps); [done|by split|done]. }
  destruct (holds_cases _ _ Hv) as (b & cap & -> & Hwf & _ & _).
  split; [|split].
  - rewrite EmplaceBack_vec by done.
    pose proof (append_effect_vec a b cap xs args Hwf) as H.
    by destruct (PushBack_forward a (vec b cap xs) args) as [[a' v'] []| |].
  - rewrite PushBack_vec. by apply append_effect_vec.
  - by apply append_effect_vec.
Qed.

Lemma Emplace_at a v xs p args x :
  holds v xs → p ≤ length xs →
  construct_from args = Some x → move_assignable x → Forall regular xs →
  ∃ a' v',
    Emplace a v (ptr_add (begin v) p) args = Returned (a', v') (ptr_add (begin v') p)
    ∧ holds v' (take p xs ++ x :: drop p xs)
    ∧ deref v' (ptr_add (begin v') p) = Some x.
Proof.
  intros Hv Hp Hargs Hx Hreg.
  destruct (holds_cases _ _ Hv) as (b & cap & -> & Hwf & _ & _).
  pose proof (Emplace_regular a b cap (take p xs) (drop p xs) args x) as HE.
  rewrite take_drop, length_take_le in HE by done.
  destruct (HE Hwf Hargs Hx Hreg) as (a' & b' & cap' & HE' & Hwf' & _). clear HE.
  rename HE' into HE.
  exists a', (vec b' cap' (take p xs ++ x :: drop p xs)).
  rewrite !ptr_add_begin_vec. split; [done|]. split; [by apply holds_vec|].
  rewrite deref_vec by done.
  apply list_lookup_middle. by rewrite length_take_le.
Qed.

(** C7: when the new element is constructed and the values involved are
    well behaved (copying or moving a value gives that value and does
    not throw), Emplace at a valid position p, and so Insert, returns a
    vector one longer in which positions [0, p) hold the previous
    elements in order, position p holds the new element and the
    previous elements from p on follow in order. *)
Theorem Emplace_inserts a v xs p args x :
  holds v xs → p ≤ length xs →
  construct_from args = Some x → move_assignable x → Forall regular xs →
  ∃ a' v' it,
    Emplace a v (ptr_add (begin v) p) args = Returned (a', v') it
    ∧ holds v' (take p xs ++ x :: drop p xs)
    ∧ size_ v' = S (size_ v)
    ∧ (∀ value, args = by_copy value →
         Insert a v (ptr_add (begin v) p) value = Returned (a', v') it)
    ∧ (∀ value, args = by_move value →
         Insert_move a v (ptr_add (begin v) p) value = Returned (a', v') it).
Proof.
  intros Hv Hp Hargs Hx Hreg.
  destruct (Emplace_at a v xs p args x) as (a' & v' & HE & Hv' & _); try done.
  exists a', v', (ptr_add (begin v') p). split; [done|]. split; [done|]. split.
  - destruct Hv as (_ & <- & _), Hv' as (_ & <- & _).
    rewrite length_app. cbn [length]. rewrite length_take_le, length_drop by done. lia.
  - split; by intros value ->.
Qed.

Lemma Erase_vec_at b cap xs xs1 d ys p :
  xs = xs1 ++ d :: ys → p = length xs1 → wf b cap xs →
  Erase (vec b cap xs) {| block_of := b; offset := p |}
  = if snd (shift_left d ys)
    then Returned (vec b cap (xs1 ++ take (length ys) (fst (shift_left d ys))))
           {| block_of := b; offset := p |}
    else Thrown (vec b cap (xs1 ++ fst (shift_left d ys))).
Proof. intros -> -> Hwf. by apply Erase_vec. Qed.

Lemma Erase_at v xs p :
  holds v xs → p < length xs → Forall move_assignable (drop (S p) xs) →
  ∃ d r v',
    xs !! p = Some d
    ∧ shift_left d (drop (S p) xs) = (drop (S p) xs ++ [r], true)
    ∧ Erase v (ptr_add (begin v) p) = Returned v' (ptr_add (begin v') p)
    ∧ holds v' (take p xs ++ drop (S p) xs)
    ∧ deref v' (ptr_add (begin v') p) = xs !! S p.
Proof.
  intros Hv Hp Hreg.
  destruct (holds_cases _ _ Hv) as (b & cap & -> & Hwf & _ & _).
  destruct (lookup_lt_is_Some_2 xs p Hp) as [d Hd].
  pose proof (take_drop_middle xs p d Hd) as Hsplit.
  destruct (shift_left_regular d (drop (S p) xs) Hreg) as [r Hr].
  exists d, r, (vec b cap (take p xs ++ drop (S p) xs)).
  split; [done|]. split; [done|].
  rewrite !ptr_add_begin_vec.
  assert (wf b cap (take p xs ++ drop (S p) xs)) as Hwf'.
  { destruct Hwf as [Hle ?]. split; [|done].
    rewrite length_app, length_take_le, length_drop by lia. lia. }
  split; [|split].
  - rewrite (Erase_vec_at b cap xs (take p xs) d (drop (S p) xs) p);
      [|done|by rewrite length_take_le by lia|done].
    rewrite Hr. cbn [fst snd]. by rewrite take_app_length.
  - by apply holds_vec.
  - rewrite deref_vec by done.
    rewrite lookup_app_r by (rewrite length_take_le; lia).
    rewrite length_take_le, Nat.sub_diag, lookup_drop by lia.
    f_equal. lia.
Qed.

(** C8, amended: for a vector and a position p before the end, Erase
    move-assigns each element after p one slot earlier and destroys the
    last slot; when those move assignments are well behaved the result is
    one shorter, keeps the prefix [0, p) and continues with the former
    elements after p in order.  So erasing position 1 of [a, b, c] gives
    [a, c], of size 2. *)
Theorem Erase_removes v xs p :
  holds v xs → p < length xs → Forall move_assignable (drop (S p) xs) →
  ∃ d r v' it,
    xs !! p = Some d
    ∧ shift_left d (drop (S p) xs) = (drop (S p) xs ++ [r], true)
    ∧ Erase v (ptr_add (begin v) p) = Returned v' it
    ∧ holds v' (take p xs ++ drop (S p) xs)
    ∧ S (size_ v') = size_ v
    ∧ Capacity v' = Capacity v.
Proof.
  intros Hv Hp Hreg.
  destruct (Erase_at v xs p) as (d & r & v' & Hd & Hsh & HE & Hv' & _); try done.
  exists d, r, v', (ptr_add (begin v') p).
  split; [done|]. split; [done|]. split; [done|]. split; [done|].
  destruct (holds_cases _ _ Hv) as (b & cap & -> & Hwf & _ & _).
  rewrite ptr_add_begin_vec in HE.
  pose proof (take_drop_middle xs p d Hd) as Hsplit.
  rewrite (Erase_vec_at b cap xs (take p xs) d (drop (S p) xs) p) in HE;
    [|done|by rewrite length_take_le by lia|done].
  rewrite Hsh in HE. cbn [fst snd] in HE. rewrite take_app_length in HE.
  injection HE as <- _.
  split; [|done].
  change (S (length (take p xs ++ drop (S p) xs)) = length xs).
  rewrite length_app, length_take_le, length_drop by lia. lia.
Qed.

Lemma Erase_end b cap xs :
  Erase (vec b cap xs) {| block_of := b; offset := length xs |} = Undefined.
Proof.
  unfold Erase, distance, cbegin.
  assert (block_of (GetAddress (data_ (vec b cap xs))) = b) as ->
    by (unfold vec; norm; by destruct b).
  norm. destruct (decide (b = b)); [|done]. cbn [Nat.leb].
  rewrite Nat.sub_0_r. unfold std_move.
  change (size_ (vec b cap xs)) with (length xs).
  by destruct (Nat.ltb_spec (length xs) (length xs + 1)); [|lia].
Qed.

(** C10: when the new element is constructed and the values involved are
    well behaved, Emplace (and so Insert) returns begin() of the resulting
    vector plus the insertion index, which points to the new element, also
    after a reallocation; EmplaceBack returns a
    reference to the appended element; Erase at a position before the end
    returns begin() plus the erased index, which points to the element
    that followed the erased one (it is end() when the last element was
    erased), and Erase at end() is undefined. *)
Theorem returned_positions a v xs p args x :
  holds v xs → p ≤ length xs →
  construct_from args = Some x → move_assignable x → Forall regular xs →
  (∃ a' v',
     Emplace a v (ptr_add (begin v) p) args = Returned (a', v') (ptr_add (begin v') p)
     ∧ deref v' (ptr_add (begin v') p) = Some x)
  ∧ (∃ a' v',
       EmplaceBack a v args = Returned (a', v') (ptr_add (begin v') (length xs))
       ∧ deref v' (ptr_add (begin v') (length xs)) = Some x)
  ∧ match Erase v (ptr_add (begin v) p) with
    | Returned v' it => it = ptr_add (begin v') p ∧ deref v' it = xs !! S p
    | Thrown _ => False
    | Undefined => p = length xs
    end.
Proof.
  intros Hv Hp Hargs Hx Hreg. split; [|split].
  - destruct (Emplace_at a v xs p args x) as (a' & v' & HE & _ & Hd); try done.
    by exists a', v'.
  - destruct (Emplace_at a v xs (length xs) args x) as (a' & v' & HE & _ & Hd); try done.
    exists a', v'. split; [|done]. rewrite <- HE.
    destruct (holds_cases _ _ Hv) as (b & cap & -> & Hwf & _ & _).
    rewrite ptr_add_begin_vec. by rewrite Emplace_end.
  - destruct (decide (p = length xs)) as [->|Hne].
    + destruct (holds_cases _ _ Hv) as (b & cap & -> & Hwf & _ & _).
      by rewrite ptr_add_begin_vec, Erase_end.
    + destruct (Erase_at v xs p) as (d & r & v' & _ & _ & -> & _ & Hd); try done; [lia|].
      eapply Forall_impl; [by apply Forall_drop|]. by intros ? (_ & _ & _ & ?).
Qed.

(** C9: for a default-constructible element type and a vector of size s,
    resize(n) followed by resize(s) gives size s again; positions below n
    keep their values and, when n < s, positions [n, s) hold
    value-initialised elements; resize to the current size changes
    nothing.  For n within the capacity nothing is allocated, moved or
    copied and both calls return.  For a larger n the first call has to
    allocate n slots; whenever it returns, the second call returns and
    gives back the elements, provided that they move and copy to equal
    values. *)
Theorem Resize_round_trip a v xs n d :
  holds v xs → value_construct = Some d →
  Resize a v (size_ v) = Returned (a, v) tt
  ∧ (n ≤ Capacity v →
       ∃ v1 v2,
         Resize a v n = Returned (a, v1) tt
         ∧ Resize a v1 (length xs) = Returned (a, v2) tt
         ∧ size_ v2 = length xs
         ∧ holds v2 (take n xs ++ replicate (length xs - n) d))
  ∧ (Forall regular xs → ∀ a1 v1,
       Resize a v n = Returned (a1, v1) tt →
       ∃ v2,
         Resize a1 v1 (length xs) = Returned (a1, v2) tt
         ∧ size_ v2 = length xs
         ∧ holds v2 (take n xs ++ replicate (length xs - n) d)).
Proof.
  intros Hv Hd.
  destruct (holds_cases _ _ Hv) as (b & cap & -> & Hwf & _ & _).
  change (Capacity (vec b cap xs)) with cap.
  assert (Resize a (vec b cap xs) (size_ (vec b cap xs)) = Returned (a, vec b cap xs) tt)
    as Hnop.
  { rewrite Resize_vec by done. change (size_ (vec b cap xs)) with (length xs).
    destruct (Nat.leb_spec (length xs) (length xs)); [|lia]. by rewrite take_ge. }
  destruct Hwf as [Hle Hb].
  assert (n ≤ cap →
          ∃ v1 v2,
            Resize a (vec b cap xs) n = Returned (a, v1) tt
            ∧ Resize a v1 (length xs) = Returned (a, v2) tt
            ∧ size_ v2 = length xs
            ∧ holds v2 (take n xs ++ replicate (length xs - n) d)) as Hin.
  { intros Hc. rewrite Resize_vec by done. rewrite Hd.
    destruct (Nat.leb_spec n (length xs)) as [Hn|Hn].
    - exists (vec b cap (take n xs)).
      assert (wf b cap (take n xs)) as Hwf1 by (split; [rewrite length_take_le; lia|done]).
      rewrite Resize_vec by done. rewrite Hd, length_take_le by done.
      destruct (Nat.leb_spec (length xs) n) as [Hn'|Hn'].
      + assert (n = length xs) as -> by lia.
        exists (vec b cap xs). rewrite !take_ge by (rewrite ?length_take; lia).
        rewrite Nat.sub_diag, app_nil_r.
        split; [done|]. split; [done|]. split; [done|]. by apply holds_vec.
      + destruct (Nat.leb_spec (length xs) cap); [|lia].
        exists (vec b cap (take n xs ++ replicate (length xs - n) d)).
        split; [done|]. split; [done|].
        assert (length (take n xs ++ replicate (length xs - n) d) = length xs) as Hl.
        { rewrite length_app, length_take_le, length_replicate by done. lia. }
        split; [done|]. apply holds_vec. split; [lia|done].
    - set (ys := xs ++ replicate (n - length xs) d).
      assert (length ys = n) as Hl by (unfold ys; rewrite length_app, length_replicate; lia).
      assert (take (length xs) ys = xs) as Htake by (unfold ys; by rewrite take_app_length).
      rewrite take_ge by lia. replace (length xs - n) with 0 by lia. rewrite app_nil_r.
      destruct (Nat.leb_spec n cap) as [_|?]; [|lia].
      exists (vec b cap ys), (vec b cap xs).
      split; [done|]. rewrite Resize_vec by (split; [lia|done]).
      destruct (Nat.leb_spec (length xs) (length ys)); [|lia].
      rewrite Htake. split; [done|]. split; [done|]. by apply holds_vec. }
  split; [done|]. split; [done|].
  intros Hreg a1 v1 H1. destruct (Nat.le_gt_cases n cap) as [Hc|Hc].
  { destruct (Hin Hc) as (v1' & v2 & E1 & E2 & Hs & Hh).
    rewrite E1 in H1. injection H1 as <- <-. by exists v2. }
  rewrite Resize_vec in H1 by done. rewrite Hd, transfer_all_regular in H1 by done.
  destruct (Nat.leb_spec n (length xs)) as [?|Hn]; [lia|].
  destruct (Nat.leb_spec n cap) as [?|_]; [lia|]. cbn [snd] in H1.
  injection H1 as <- <-.
  set (ys := xs ++ replicate (n - length xs) d).
  assert (length ys = n) as Hl by (unfold ys; rewrite length_app, length_replicate; lia).
  assert (take (length xs) ys = xs) as Htake by (unfold ys; by rewrite take_app_length).
  rewrite take_ge by lia. replace (length xs - n) with 0 by lia. rewrite app_nil_r.
  exists (vec (Some a) n xs). rewrite Resize_vec by (split; [lia|done]).
  destruct (Nat.leb_spec (length xs) (length ys)); [|lia].
  rewrite Htake. split; [done|]. split; [done|]. apply holds_vec. split; [lia|done].
Qed.

(** ** The claims on two vectors *)

Lemma lookup_put this v a (w : World (T:=T)) : objects (put this v a w) !! this = Some v.
Proof. unfold put. simpl. apply lookup_insert_eq. Qed.

Lemma lookup_put_ne this other v a (w : World (T:=T)) :
  this ≠ other → objects (put this v a w) !! other = objects w !! other.
Proof. intros H. unfold put. simpl. by apply lookup_insert_ne. Qed.

(** C5: move construction leaves the source with size 0, capacity 0 and
    no storage, and the new vector with the buffer, size and elements the
    source had; move assignment between two distinct vectors exchanges
    buffer and size, so that the source ends up with what the destination
    owned; neither exits by an exception, whatever the vectors. *)
Theorem move_semantics (w : World (T:=T)) this other o :
  objects w !! other = Some o → this ≠ other →
  match objects w !! this with
  | None =>
    ∃ w' o', new_move this other w = Returned w' tt
             ∧ objects w' !! this = Some o
             ∧ objects w' !! other = Some o'
             ∧ size_ o' = 0 ∧ Capacity o' = 0 ∧ buffer_ (data_ o') = @None (block (T:=T))
  | Some t =>
    ∃ w', assign_move this other w = Returned w' tt
          ∧ objects w' !! this = Some o
          ∧ objects w' !! other = Some t
  end
  ∧ ∀ (w0 : World (T:=T)) i j s,
      new_move i j w0 ≠ Thrown s ∧ assign_move i j w0 ≠ Thrown s.
Proof.
  intros Ho Hne. split.
  - destruct (objects w !! this) as [t|] eqn:Ht.
    + unfold assign_move. rewrite Ht, Ho.
      destruct (decide (this ≠ other)); [|done].
      rewrite Swap_eq. eexists. split; [done|].
      rewrite lookup_put. by rewrite lookup_put_ne, lookup_put by done.
    + unfold new_move. rewrite Ht, Ho, Vector_move_eq.
      eexists _, _. split; [done|].
      rewrite lookup_put. rewrite lookup_put_ne, lookup_put by done. done.
  - intros w0 i j s. unfold new_move, assign_move. split.
    + destruct (objects w0 !! i), (objects w0 !! j); try done;
        by destruct (Vector_move _).
    + destruct (objects w0 !! i), (objects w0 !! j); try done;
        destruct (decide (i ≠ j)); try done; by destruct (Swap _ _).
Qed.

Lemma assign_copy_regular w this rhs t r ts rs :
  objects w !! this = Some t → objects w !! rhs = Some r → this ≠ rhs →
  holds t ts → holds r rs → Forall regular rs →
  ∃ w' t',
    assign_copy this rhs w = Returned w' tt
    ∧ objects w' !! this = Some t' ∧ holds t' rs ∧ size_ t' = size_ r
    ∧ objects w' !! rhs = Some r.
Proof.
  intros Ht Hr Hne Hts Hrs Hreg.
  destruct (holds_cases _ _ Hts) as (bt & capt & -> & Hwt & _ & _).
  destruct (holds_cases _ _ Hrs) as (br & capr & -> & Hwr & _ & _).
  rewrite (assign_copy_vec this rhs w bt capt ts br capr rs) by done.
  assert (Forall copyable rs) as Hc
    by (eapply Forall_impl; [exact Hreg|]; by intros ? (? & _)).
  assert (Forall copy_assignable rs) as Ha
    by (eapply Forall_impl; [exact Hreg|]; by intros ? (_ & _ & ? & _)).
  destruct Hwt as [Hlt Hbt].
  destruct (Nat.ltb_spec capt (length rs)) as [Hcap|Hcap].
  - rewrite copy_all_regular by done.
    eexists _, _. split; [done|]. rewrite lookup_put, lookup_put_ne by done.
    split; [done|]. split; [|done]. apply holds_vec. by split.
  - destruct (Nat.ltb_spec (length rs) (length ts)) as [Hs|Hs].
    + rewrite assign_all_regular; [|rewrite length_take_le; lia|done].
      cbn [fst snd].
      eexists _, _. split; [done|]. rewrite lookup_put, lookup_put_ne by done.
      split; [done|]. split; [|done]. apply holds_vec. by split.
    + rewrite assign_all_regular;
        [|rewrite length_take_le; lia|by apply Forall_take].
      cbn [fst snd]. rewrite copy_all_regular by (by apply Forall_drop).
      rewrite take_drop.
      eexists _, _. split; [done|]. rewrite lookup_put, lookup_put_ne by done.
      split; [done|]. split; [|done]. apply holds_vec. by split.
Qed.

Lemma assign_copy_self w this t :
  objects w !! this = Some t → assign_copy this this w = Returned w tt.
Proof.
  intros Ht. unfold assign_copy. rewrite Ht.
  by destruct (decide (this ≠ this)).
Qed.

(** C6: copy assignment from a different vector whose values are well
    behaved makes the destination hold the values of the source, with
    the size of the source, and leaves the source as it is;
    self-assignment changes nothing; and when the capacity of the
    destination is less than the size of the source, a throw while the
    source is duplicated propagates and leaves every vector as it was. *)
Theorem copy_assignment w this rhs t r ts rs :
  objects w !! this = Some t → objects w !! rhs = Some r → this ≠ rhs →
  holds t ts → holds r rs →
  (Forall regular rs →
     ∃ w' t',
       assign_copy this rhs w = Returned w' tt
       ∧ objects w' !! this = Some t' ∧ holds t' rs ∧ size_ t' = size_ r
       ∧ objects w' !! rhs = Some r)
  ∧ assign_copy this this w = Returned w tt
  ∧ (Capacity t < size_ r →
       (∀ w', assign_copy this rhs w = Thrown w' → objects w' = objects w)
       ∧ (copy_all rs = None →
            ∃ w', assign_copy this rhs w = Thrown w' ∧ objects w' = objects w)).
Proof.
  intros Ht Hr Hne Hts Hrs. split; [|split].
  - intros Hreg. by eapply assign_copy_regular.
  - by eapply assign_copy_self.
  - intros Hcap.
    destruct (holds_cases _ _ Hts) as (bt & capt & -> & Hwt & _ & _).
    destruct (holds_cases _ _ Hrs) as (br & capr & -> & Hwr & _ & _).
    change (capt < length rs) in Hcap.
    rewrite (assign_copy_vec this rhs w bt capt ts br capr rs) by done.
    destruct (Nat.ltb_spec capt (length rs)); [|lia].
    destruct (copy_all rs) as [ys|]; split; try done.
    + by intros w' [= <-].
    + intros _. by eexists.
Qed.

(** ** The invariant *)















Lemma World_good_alloc a w :
  World_good w → World_good {| next_block := a; objects := objects w |}.
Proof. done. Qed.



Lemma keeps_forget {S R} (P : S → Prop) (o : outcome S R) : keeps P o → keeps P (forget o).
Proof. by destruct o. Qed.






(** Once the new element is constructed, no exception leaves the
    reallocating branch of Emplace, whatever the transfers do. *)
Lemma emplace_realloc_swallows a v index args s :
  construct_from args ≠ None → emplace_realloc a v index args ≠ Thrown s.
Proof.
  intros Hargs. unfold emplace_realloc.
  destruct (RawMemory_new _ a) as [a' new_data].
  destruct (construct_from args) as [x|]; [|done].
  destruct (construct_at _ _ _); [|done].
  destruct (try_catch_all _ _) as [[old1 new1]|]; [|done].
  destruct (try_catch_all _ _) as [[old2 new2]|]; [|done].
  by destruct (std_destroy_n _ _ _).
Qed.

(** ** Further properties: Reserve *)

(** X1: a Reserve that the capacity already covers returns the same
    vector and allocates nothing.  Whenever Reserve returns, for elements
    that move and copy to equal values, the vector has the same size and
    the same elements, its capacity is the larger of the request and the
    old capacity, and if the capacity had to grow, one block has been
    allocated and is the buffer now. *)
Theorem Reserve_keeps_elements a v xs n :
  holds v xs → Forall regular xs →
  (n ≤ Capacity v → Reserve a v n = Returned (a, v) tt)
  ∧ ∀ a' v',
      Reserve a v n = Returned (a', v') tt →
      elements v' = Some xs ∧ Size v' = Size v
      ∧ Capacity v' = n `max` Capacity v
      ∧ (Capacity v < n → a' = S a ∧ begin v' = {| block_of := Some a; offset := 0 |}).
Proof.
  intros Hv Hreg. destruct (holds_cases _ _ Hv) as (b & cap & -> & Hwf & _ & _).
  rewrite Reserve_vec, transfer_all_regular by done.
  change (Capacity (vec b cap xs)) with cap. destruct Hwf as [Hle Hb].
  destruct (Nat.leb_spec n cap).
  - split; [done|]. intros a' v' [= <- <-].
    split; [by apply holds_elements, holds_vec|]. split; [done|].
    split; [change (cap = n `max` cap); lia|lia].
  - split; [lia|]. intros a' v' [= <- <-].
    split; [apply holds_elements, holds_vec; split; [lia|done]|]. split; [done|].
    split; [change (n = n `max` cap); lia|]. intros _. by rewrite begin_vec.
Qed.


(** ** Further properties: construction, PopBack, round trips, Resize *)

(** X4: Vector(0) returns the default vector, allocates nothing and cannot
    throw, also when the default constructor of the element type throws.
    Whenever Vector(n) returns, the vector has size n and capacity n; for
    n > 0 one block has been allocated, which is its buffer, and it holds
    n value-initialised elements. *)
Theorem Vector_sized_spec n a :
  Vector_sized 0 a = Returned a Vector_default
  ∧ match Vector_sized n a with
    | Returned a' v =>
      Size v = n ∧ Capacity v = n
      ∧ (n = 0 → a' = a ∧ v = Vector_default)
      ∧ (0 < n →
           a' = S a ∧ begin v = {| block_of := Some a; offset := 0 |}
           ∧ ∃ d, value_construct = Some d ∧ holds v (replicate n d))
    | Thrown _ => 0 < n
    | Undefined => True
    end.
Proof.
  split; [done|]. rewrite Vector_sized_eq. destruct n as [|k].
  - split; [done|]. split; [done|]. split; [done|lia].
  - destruct value_construct as [d|]; [|lia].
    split; [unfold Size, vec; simpl; by rewrite length_replicate|]. split; [done|].
    split; [done|]. intros _. split; [done|]. split; [by rewrite begin_vec|].
    exists d. split; [done|]. apply holds_vec. split; [by rewrite length_replicate|done].
Qed.

(** X5: the copy constructor either returns a vector that holds the copies
    of the source's elements, with capacity equal to the size (not the
    capacity) of the source and a newly allocated buffer, or, when the copy
    of an element throws, exits by the exception; copying an empty vector
    allocates nothing. *)
Theorem Vector_copy_spec o xs a :
  holds o xs →
  match Vector_copy o a with
  | Returned a' v =>
    ∃ ys, copy_all xs = Some ys ∧ holds v ys ∧ Capacity v = Size o
          ∧ (Forall copyable xs → ys = xs)
          ∧ (xs = [] → a' = a ∧ v = Vector_default)
          ∧ (xs ≠ [] → a' = S a ∧ begin v = {| block_of := Some a; offset := 0 |})
  | Thrown a' => copy_all xs = None ∧ a' = S a
  | Undefined => False
  end.
Proof.
  intros Ho. destruct (holds_cases _ _ Ho) as (b & cap & -> & Hwf & _ & _).
  rewrite Vector_copy_vec by done. destruct xs as [|x xs].
  { exists []. split; [done|]. split; [by apply (holds_vec None 0 [])|]. done. }
  destruct (copy_all (x :: xs)) as [ys|] eqn:Hys; [|done].
  exists ys. split; [done|]. pose proof (copy_all_length _ _ Hys) as Hl.
  split; [apply holds_vec; split; [lia|done]|]. split; [done|].
  split; [|split; [done|]].
  - intros Hc. rewrite copy_all_regular in Hys by done. by injection Hys.
  - intros _. by rewrite begin_vec.
Qed.

(** X6: PopBack on a non-empty vector destroys the last element and keeps
    the buffer and the capacity; on an empty vector it is undefined; and it
    exits by an exception for no vector at all. *)
Theorem PopBack_spec v xs :
  holds v xs →
  match PopBack v with
  | Returned v' _ =>
    holds v' (take (length xs - 1) xs) ∧ S (Size v') = Size v
    ∧ Capacity v' = Capacity v ∧ begin v' = begin v
  | Thrown _ => False
  | Undefined => xs = []
  end
  ∧ ∀ (u : Vector (T:=T)) s, PopBack u ≠ Thrown s.
Proof.
  intros Hv. split.
  - destruct (holds_cases _ _ Hv) as (b & cap & -> & Hwf & _ & _).
    destruct xs as [|x xs _] using rev_ind; [done|].
    rewrite PopBack_vec by done.
    rewrite length_snoc, Nat.sub_succ, Nat.sub_0_r, take_app_length.
    destruct Hwf as [Hle Hb]. rewrite length_snoc in Hle.
    split; [apply holds_vec; split; [lia|done]|].
    split; [unfold Size, vec; simpl; by rewrite length_snoc|].
    split; [done|]. by rewrite !begin_vec.
  - intros u s. unfold PopBack. destruct (size_ u); [done|].
    by destruct (std_destroy_n _ _ _).
Qed.

(** X7: an append followed by PopBack gives back the elements the vector
    held; when the append found spare capacity the vector is exactly the
    one before. *)
Theorem append_then_pop a v xs args x :
  holds v xs → construct_from args = Some x → Forall regular xs →
  ∃ a' v' r v'',
    EmplaceBack a v args = Returned (a', v') r
    ∧ holds v' (xs ++ [x])
    ∧ PopBack v' = Returned v'' tt
    ∧ holds v'' xs
    ∧ (Size v < Capacity v → v'' = v).
Proof.
  intros Hv Hargs Hreg. destruct (holds_cases _ _ Hv) as (b & cap & -> & Hwf & _ & _).
  rewrite EmplaceBack_vec, PushBack_forward_vec, Hargs, transfer_all_regular by done.
  change (Size (vec b cap xs)) with (length xs).
  change (Capacity (vec b cap xs)) with cap.
  destruct Hwf as [Hle Hb].
  destruct (Nat.ltb_spec (length xs) cap).
  - assert (wf b cap (xs ++ [x])) by (split; [rewrite length_snoc; lia|done]).
    eexists _, _, _, _. split; [done|]. split; [by apply holds_vec|].
    split; [by apply PopBack_vec|]. split; [by apply holds_vec|]. done.
  - set (n := if length xs =? 0 then 1 else length xs * 2).
    assert (length xs < n) by (unfold n; destruct (length xs); simpl; lia).
    assert (wf (Some a) n (xs ++ [x])) by (split; [rewrite length_snoc; lia|done]).
    eexists _, _, _, _. split; [done|]. split; [by apply holds_vec|].
    split; [by apply PopBack_vec|]. split; [apply holds_vec; split; [lia|done]|]. lia.
Qed.

(** X8: Emplace at a valid position followed by Erase at the returned
    iterator gives back the elements the vector held. *)
Theorem Emplace_then_Erase a v xs p args x :
  holds v xs → p ≤ length xs →
  construct_from args = Some x → move_assignable x → Forall regular xs →
  ∃ a' v' it v'' it',
    Emplace a v (ptr_add (begin v) p) args = Returned (a', v') it
    ∧ holds v' (take p xs ++ x :: drop p xs)
    ∧ Erase v' it = Returned v'' it'
    ∧ holds v'' xs.
Proof.
  intros Hv Hp Hargs Hx Hreg.
  destruct (Emplace_at a v xs p args x) as (a' & v' & HE & Hv' & _); try done.
  assert (length (take p xs) = p) as Hlp by (by rewrite length_take_le).
  assert (drop (S p) (take p xs ++ x :: drop p xs) = drop p xs) as Hdrop.
  { rewrite drop_app_ge by lia. by rewrite Hlp, Nat.sub_succ_l, Nat.sub_diag by lia. }
  assert (take p (take p xs ++ x :: drop p xs) = take p xs) as Htake.
  { rewrite take_app_le by lia. by rewrite take_take, Nat.min_id. }
  destruct (Erase_at v' (take p xs ++ x :: drop p xs) p)
    as (d & r & v'' & _ & _ & HEr & Hv'' & _); [done| | |].
  - rewrite length_app, Hlp. simpl. lia.
  - rewrite Hdrop. apply Forall_drop.
    eapply Forall_impl; [exact Hreg|]. by intros ? (_ & _ & _ & ?).
  - rewrite Htake, Hdrop, take_drop in Hv''.
    by exists a', v', (ptr_add (begin v') p), v'', (ptr_add (begin v'') p).
Qed.


(** ** Further properties: the destructor, insertion at the end *)

Lemma std_destroy_n_is_Some cs i n :
  is_Some (std_destroy_n cs i n) ↔ is_Some (values (drop i cs) n).
Proof.
  revert cs i. induction n as [|n IH]; intros cs i; [by split; eexists|].
  cbn [std_destroy_n values]. unfold std_destroy_at.
  destruct (cs !! i) as [[|x]|] eqn:Hi.
  - rewrite (drop_S cs Raw i) by done. split; by intros [? ?].
  - rewrite (drop_S cs (Obj x) i) by done.
    rewrite IH, drop_insert_lt by lia. by rewrite fmap_is_Some.
  - rewrite drop_ge by (by apply lookup_ge_None). split; by intros [? ?].
Qed.

(** X11: the destructor of a vector is defined exactly when each of its
    first Size() slots holds a constructed element; so it is defined for
    every vector that satisfies the invariant, and undefined for a vector
    that counts a destroyed slot among its elements. *)
Theorem Vector_destroy_defined v :
  (Vector_destroy v = Some tt ↔ is_Some (elements v))
  ∧ (good v → Vector_destroy v = Some tt).
Proof.
  assert (Vector_destroy v = Some tt ↔ is_Some (elements v)) as Hiff.
  { unfold Vector_destroy, elements.
    pose proof (std_destroy_n_is_Some (slots (data_ v)) 0 (size_ v)) as H.
    rewrite drop_0 in H. rewrite <- H.
    destruct (std_destroy_n _ _ _); split; try done; by intros [? ?]. }
  split; [done|]. intros [xs Hxs]. apply Hiff. rewrite (holds_elements _ _ Hxs). by eexists.
Qed.

Lemma PushBack_forward_size a v args a' v' r :
  PushBack_forward a v args = Returned (a', v') r → size_ v' = S (size_ v).
Proof.
  unfold PushBack_forward, append_in_place, append_realloc.
  destruct (size_ v <? Capacity v).
  - destruct (RawMemory_plus _ _); [|done]. destruct (construct_from args); [|done].
    destruct (construct_at _ _ _); [|done]. by intros [= <- <-].
  - destruct (RawMemory_new _ a) as [a0 new_data].
    destruct (RawMemory_plus _ _); [|done]. destruct (construct_from args); [|done].
    destruct (construct_at _ _ _); [|done].
    destruct (transfer_n _ _ _ _ _) as [[old new] ?|[old new]|]; [|done..].
    destruct (std_destroy_n _ _ _); [|done]. by intros [= <- <-].
Qed.

Lemma EmplaceBack_eq a v args :
  EmplaceBack a v args
  = match PushBack_forward a v args with
    | Returned (a', v') _ =>
      Returned (a', v') {| block_of := block_of (begin v'); offset := size_ v |}
    | Thrown s => Thrown s
    | Undefined => Undefined
    end.
Proof.
  unfold EmplaceBack. fold (PushBack_forward a v args).
  destruct (PushBack_forward a v args) as [[a' v'] []|[a' v']|] eqn:HP; [|done..].
  apply PushBack_forward_size in HP. unfold ptr_pred, ptr_add. cbn [offset GetAddress].
  by rewrite HP.
Qed.

Lemma Emplace_cend a v args :
  Emplace a v (cend v) args
  = match PushBack_forward a v args with
    | Returned (a', v') _ =>
      Returned (a', v') {| block_of := block_of (begin v'); offset := size_ v |}
    | Thrown s => Thrown s
    | Undefined => Undefined
    end.
Proof.
  unfold Emplace. destruct (decide (cend v = cend v)); [|done].
  rewrite EmplaceBack_eq.
  destruct (PushBack_forward a v args) as [[a' v'] []|[a' v']|] eqn:HP; [|done..].
  apply PushBack_forward_size in HP. unfold ptr_pred, end_, ptr_add.
  cbn [offset GetAddress]. by rewrite HP.
Qed.

(** X12: Emplace and Insert at end() do what an append does, for every
    vector: they leave the state that PushBack leaves, in the same way
    (returning or exiting by an exception), and the iterator they return
    is end() - 1; EmplaceBack differs from PushBack only by the reference
    it returns. *)
Theorem Insert_at_end a v args value :
  forget (Emplace a v (cend v) args) = PushBack_forward a v args
  ∧ forget (Insert a v (cend v) value) = PushBack a v value
  ∧ forget (EmplaceBack a v args) = PushBack_forward a v args
  ∧ match Emplace a v (cend v) args with
    | Returned (a', v') it => ptr_add it 1 = end_ v'
    | _ => True
    end.
Proof.
  split; [|split; [|split]].
  - rewrite Emplace_cend. by destruct (PushBack_forward a v args) as [[a' v'] []|[a' v']|].
  - unfold Insert. rewrite Emplace_cend.
    change (PushBack_forward a v (by_copy value)) with (PushBack a v value).
    by destruct (PushBack a v value) as [[a' v'] []|[a' v']|].
  - rewrite EmplaceBack_eq. by destruct (PushBack_forward a v args) as [[a' v'] []|[a' v']|].
  - rewrite Emplace_cend.
    destruct (PushBack_forward a v args) as [[a' v'] []|[a' v']|] eqn:HP; [|done..].
    apply PushBack_forward_size in HP. unfold end_, ptr_add, begin.
    cbn [offset GetAddress block_of]. rewrite HP. f_equal. lia.
Qed.

(** ** Further properties: storage *)

Lemma begin_with_slots (m : RawMemory (T:=T)) cs k :
  begin {| data_ := with_slots m cs; size_ := k |} = GetAddress m.
Proof. unfold begin, GetAddress, with_slots. simpl. by destruct (buffer_ m). Qed.

Lemma storage_kept_with_slots v cs k :
  storage_kept v {| data_ := with_slots (data_ v) cs; size_ := k |}.
Proof. split; [apply begin_with_slots|done]. Qed.

Lemma storage_kept_refl v : storage_kept v v.
Proof. done. Qed.

Lemma storage_step_kept a v v' : storage_kept v v' → storage_step a v (a, v').
Proof. intros H. split; [simpl; lia|by left]. Qed.

Lemma storage_step_throw a v v' : storage_kept v v' → storage_step a v (S a, v').
Proof. intros H. split; [simpl; lia|by left]. Qed.

Lemma storage_step_new a v n cs k :
  Capacity v < n →
  storage_step a v
    (S a, {| data_ := with_slots {| buffer_ := Some {| base := a; cells := replicate n Raw |};
                                    capacity_ := n |} cs;
             size_ := k |}).
Proof. intros H. split; [simpl; lia|]. right. by split. Qed.

Lemma Reserve_storage a v n : keeps (storage_step a v) (Reserve a v n).
Proof.
  unfold Reserve. fold (Capacity v).
  destruct (Nat.leb_spec n (Capacity v)); [by apply storage_step_kept|].
  rewrite RawMemory_new_pos by lia.
  destruct (transfer_n _ _ _ _ _) as [[old new] ?|[old new]|]; [| |done].
  - destruct (std_destroy_n _ _ _); [|done]. by apply storage_step_new.
  - apply storage_step_throw, storage_kept_with_slots.
Qed.

Lemma Resize_storage a v n : keeps (storage_step a v) (Resize a v n).
Proof.
  unfold Resize. destruct (size_ v <? n).
  - pose proof (Reserve_storage a v n) as H.
    destruct (Reserve a v n) as [[a' v'] ?|[a' v']|]; [|done..].
    cbn [keeps] in H.
    assert (∀ cs k, storage_step a v (a', {| data_ := with_slots (data_ v') cs; size_ := k |}))
      as Hstep.
    { intros cs k. destruct H as [Ha [[Hb Hc]|(Ha' & Hb & Hc)]]; (split; [done|]).
      - left. split; [|done]. cbn [snd]. by rewrite begin_with_slots.
      - right. split; [done|]. split; [|done]. cbn [snd]. by rewrite begin_with_slots. }
    destruct (std_uninitialized_value_construct_n _ _ _); [| |done]; apply Hstep.
  - destruct (n <? size_ v); [|by apply storage_step_kept].
    destruct (std_destroy_n _ _ _); [|done].
    apply storage_step_kept, storage_kept_with_slots.
Qed.

Lemma grown_capacity v :
  (size_ v <? Capacity v) = false →
  Capacity v < (if size_ v =? 0 then 1 else size_ v * 2).
Proof.
  intros H%Nat.ltb_ge. destruct (size_ v); simpl; lia.
Qed.

Lemma PushBack_forward_storage a v args :
  keeps (storage_step a v) (PushBack_forward a v args).
Proof.
  unfold PushBack_forward, append_in_place, append_realloc.
  destruct (size_ v <? Capacity v) eqn:Hfit.
  - destruct (RawMemory_plus _ _); [|done].
    destruct (construct_from args); [|by apply storage_step_kept].
    destruct (construct_at _ _ _); [|done].
    apply storage_step_kept, storage_kept_with_slots.
  - pose proof (grown_capacity v Hfit) as Hgrow.
    rewrite RawMemory_new_pos by lia.
    destruct (RawMemory_plus _ _); [|done].
    destruct (construct_from args); [|by apply storage_step_throw].
    destruct (construct_at _ _ _); [|done].
    destruct (transfer_n _ _ _ _ _) as [[old new] ?|[old new]|]; [| |done].
    + destruct (std_destroy_n _ _ _); [|done]. by apply storage_step_new.
    + apply storage_step_throw, storage_kept_with_slots.
Qed.

Lemma EmplaceBack_storage a v args : keeps (storage_step a v) (EmplaceBack a v args).
Proof.
  pose proof (PushBack_forward_storage a v args) as H. rewrite EmplaceBack_eq.
  by destruct (PushBack_forward a v args) as [[a' v'] []|[a' v']|].
Qed.

Lemma PopBack_storage v : keeps (storage_kept v) (PopBack v).
Proof.
  unfold PopBack. destruct (size_ v); [done|].
  destruct (std_destroy_n _ _ _); [|done]. apply storage_kept_with_slots.
Qed.

Lemma storage_kept_trans v v' v'' :
  storage_kept v v' → storage_kept v' v'' → storage_kept v v''.
Proof. intros [H1 H2] [H3 H4]. split; congruence. Qed.

Lemma Erase_storage v pos : keeps (storage_kept v) (Erase v pos).
Proof.
  unfold Erase. destruct (distance _ _); [|done].
  destruct (std_move _ _ _ _) as [cs ?|cs|]; [| |done].
  - pose proof (PopBack_storage (with_cells v cs)) as H.
    destruct (PopBack (with_cells v cs)) as [v' ?|v'|]; [| |done];
      (eapply storage_kept_trans; [apply storage_kept_with_slots|apply H]).
  - apply storage_kept_with_slots.
Qed.

Lemma assign_element_storage v index x : keeps (storage_kept v) (assign_element v index x).
Proof.
  unfold assign_element. destruct (index_op v index); [|done].
  destruct (_ !! _) as [[|d]|]; [done| |done].
  destruct (copy_assign d x); apply storage_kept_with_slots.
Qed.

Lemma emplace_in_place_storage v index args :
  keeps (storage_kept v) (emplace_in_place v index args).
Proof.
  unfold emplace_in_place.
  destruct (construct_from args) as [tmp|]; [|done].
  destruct (RawMemory_plus _ _); [|done]. destruct (size_ v) as [|k]; [done|].
  destruct (RawMemory_index _ k) as [q|]; [|done].
  destruct (_ !! offset q) as [[|last]|]; [done| |done].
  destruct (fst (move_construct last)); [|apply storage_kept_with_slots].
  destruct (construct_at _ _ _); [|done].
  destruct (std_move_backward _ _ _ _) as [cs2 ?|cs2|]; [| |done].
  - destruct (RawMemory_index _ index) as [q2|]; [|done].
    destruct (cs2 !! offset q2) as [[|t0]|]; [done| |done].
    destruct (move_assign t0 tmp) as [[t' ?]|[t' ?]]; apply storage_kept_with_slots.
  - apply storage_kept_with_slots.
Qed.

Lemma emplace_realloc_storage a v index args :
  (size_ v <? Capacity v) = false →
  keeps (storage_step a v) (emplace_realloc a v index args).
Proof.
  intros Hfit. pose proof (grown_capacity v Hfit) as Hgrow.
  unfold emplace_realloc. rewrite RawMemory_new_pos by lia.
  destruct (construct_from args); [|by apply storage_step_throw].
  destruct (construct_at _ _ _); [|done].
  destruct (try_catch_all _ _) as [[old1 new1]|]; [|done].
  destruct (try_catch_all _ _) as [[old2 new2]|]; [|done].
  destruct (std_destroy_n _ _ _); [|done]. by apply storage_step_new.
Qed.

Lemma Emplace_storage a v pos args : keeps (storage_step a v) (Emplace a v pos args).
Proof.
  unfold Emplace. destruct (decide (pos = cend v)) as [->|_].
  - pose proof (EmplaceBack_storage a v args) as H.
    destruct (EmplaceBack a v args) as [[a' v'] ?|[a' v']|]; [|done..].
    by destruct (ptr_pred _).
  - destruct (distance _ _) as [index|]; [|done].
    destruct (size_ v <? Capacity v) eqn:Hfit; [|by apply emplace_realloc_storage].
    pose proof (emplace_in_place_storage v index args) as H.
    destruct (emplace_in_place v index args) as [v' ?|v'|]; [| |done];
      by apply storage_step_kept.
Qed.

(** X13: Reserve, Resize, EmplaceBack, PushBack, Emplace and Insert never
    shrink the capacity of the vector they are called on and never change
    its buffer without growing the capacity: whether they return or exit
    by an exception, they allocate at most one block, and either leave
    buffer and capacity as they were or have made the block just allocated
    the buffer of the vector, with a strictly larger capacity.  PopBack
    and Erase always leave buffer and capacity as they were.  This holds
    for every vector, valid position or not.  (Swap and move assignment
    are not among these methods: they exchange buffers.) *)
Theorem storage_changes a v :
  (∀ n, keeps (storage_step a v) (Reserve a v n))
  ∧ (∀ n, keeps (storage_step a v) (Resize a v n))
  ∧ (∀ args, keeps (storage_step a v) (EmplaceBack a v args))
  ∧ (∀ value, keeps (storage_step a v) (PushBack a v value))
  ∧ (∀ args, keeps (storage_step a v) (PushBack_forward a v args))
  ∧ (∀ pos args, keeps (storage_step a v) (Emplace a v pos args))
  ∧ (∀ pos value, keeps (storage_step a v) (Insert a v pos value))
  ∧ keeps (storage_kept v) (PopBack v)
  ∧ (∀ pos, keeps (storage_kept v) (Erase v pos)).
Proof.
  split; [apply Reserve_storage|]. split; [apply Resize_storage|].
  split; [apply EmplaceBack_storage|].
  split; [intros value; apply (PushBack_forward_storage a v (by_copy value))|].
  split; [apply PushBack_forward_storage|]. split; [apply Emplace_storage|].
  split; [intros pos value; apply Emplace_storage|].
  split; [apply PopBack_storage|apply Erase_storage].
Qed.

(** ** Further properties: ownership of buffers *)

Lemma base_of_with_slots (m : RawMemory (T:=T)) cs k :
  base_of {| data_ := with_slots m cs; size_ := k |} = base <$> buffer_ m.
Proof. unfold base_of. by rewrite begin_with_slots. Qed.

Lemma storage_kept_base v v' :
  storage_kept v v' → base_of v' = base_of v ∧ Capacity v' = Capacity v.
Proof. intros [H1 H2]. split; [unfold base_of; by rewrite H1|done]. Qed.

Lemma exclusive_put this v' a' w :
  exclusive w → next_block w ≤ a' →
  (base_of v' = None ↔ Capacity v' = 0) →
  (∀ b, base_of v' = Some b →
     b < a' ∧ ∀ j vj, j ≠ this → objects w !! j = Some vj → base_of vj ≠ Some b) →
  exclusive (put this v' a' w).
Proof.
  intros (Hlt & Hne & Hsh) Ha Hsh' Hfresh. split; [|split].
  - intros id v b. cbn [next_block put]. destruct (decide (this = id)) as [->|Hd].
    + rewrite lookup_put. intros [= <-] Hb. by apply Hfresh.
    + rewrite lookup_put_ne by done. intros Hid Hb. specialize (Hlt _ _ _ Hid Hb). lia.
  - intros i j vi vj b Hij.
    destruct (decide (this = i)) as [Hdi|Hdi]; destruct (decide (this = j)) as [Hdj|Hdj];
      [congruence|subst i|subst j|].
    + rewrite lookup_put, lookup_put_ne by done. intros [= <-] Hj Hb.
      apply (proj2 (Hfresh b Hb) j vj); [congruence|done].
    + rewrite lookup_put, lookup_put_ne by done. intros Hi [= <-] Hb Hb'.
      apply (proj2 (Hfresh b Hb') i vi); [congruence|done..].
    + rewrite !lookup_put_ne by done. apply Hne. done.
  - intros id v. destruct (decide (this = id)) as [->|Hd].
    + rewrite lookup_put. by intros [= <-].
    + rewrite lookup_put_ne by done. apply Hsh.
Qed.

Lemma exclusive_alloc a' w :
  exclusive w → next_block w ≤ a' → exclusive {| next_block := a'; objects := objects w |}.
Proof.
  intros (Hlt & Hne & Hsh) Ha. split; [|split]; [|done..].
  intros id v b Hid Hb. specialize (Hlt _ _ _ Hid Hb). cbn [next_block]. lia.
Qed.

Lemma exclusive_delete this w :
  exclusive w → exclusive {| next_block := next_block w; objects := delete this (objects w) |}.
Proof.
  intros (Hlt & Hne & Hsh). split; [|split].
  - intros id v b. cbn [objects next_block]. intros [_ Hid]%lookup_delete_Some.
    by apply (Hlt id).
  - intros i j vi vj b Hij. cbn [objects].
    intros [_ Hi]%lookup_delete_Some [_ Hj]%lookup_delete_Some. by apply (Hne i j).
  - intros id v. cbn [objects]. intros [_ Hid]%lookup_delete_Some. by apply (Hsh id).
Qed.

(* the buffer an object keeps stays apart from those of the others *)
Lemma exclusive_same this v v' a' w :
  exclusive w → objects w !! this = Some v → next_block w ≤ a' →
  base_of v' = base_of v → Capacity v' = Capacity v →
  exclusive (put this v' a' w).
Proof.
  intros Hw Hv Ha Hb Hc. pose proof Hw as (Hlt & Hne & Hsh).
  apply exclusive_put; [done..| |].
  - rewrite Hb, Hc. by apply (Hsh this).
  - intros b Hb'. rewrite Hb in Hb'. split.
    + specialize (Hlt _ _ _ Hv Hb'). lia.
    + intros j vj Hj Hvj. by apply (Hne this j v vj b).
Qed.

(* a block just allocated is no other object's buffer *)
Lemma exclusive_fresh this v' w :
  exclusive w → base_of v' = Some (next_block w) → 0 < Capacity v' →
  exclusive (put this v' (S (next_block w)) w).
Proof.
  intros Hw Hb Hc. pose proof Hw as (Hlt & Hne & Hsh).
  apply exclusive_put; [done|lia| |].
  - rewrite Hb. split; [done|lia].
  - intros b Hb'. rewrite Hb in Hb'. injection Hb' as <-. split; [lia|].
    intros j vj _ Hvj Hbj. specialize (Hlt _ _ _ Hvj Hbj). lia.
Qed.

Lemma exclusive_step this v a' v' w :
  exclusive w → objects w !! this = Some v →
  storage_step (next_block w) v (a', v') → exclusive (put this v' a' w).
Proof.
  intros Hw Hv [Ha [Hk|(Ha' & Hb & Hc)]]; cbn [fst snd] in *.
  - apply storage_kept_base in Hk as [Hb Hc]. by apply (exclusive_same this v); [| |lia|..].
  - subst a'. apply exclusive_fresh; [done| |lia]. unfold base_of. by rewrite Hb.
Qed.

Lemma call_exclusive {R} (m : nat → Vector → outcome (nat * Vector) R) this w :
  exclusive w →
  (∀ v, keeps (storage_step (next_block w) v) (m (next_block w) v)) →
  keeps exclusive (call m this w).
Proof.
  intros Hw Hm. unfold call. destruct (objects w !! this) as [v|] eqn:Hv; [|done].
  specialize (Hm v). destruct (m (next_block w) v) as [[a' v'] r|[a' v']|]; [| |done];
    by apply (exclusive_step this v).
Qed.

Lemma call_in_place_exclusive {R} (m : Vector → outcome Vector R) this w :
  exclusive w → (∀ v, keeps (storage_kept v) (m v)) →
  keeps exclusive (call_in_place m this w).
Proof.
  intros Hw Hm. unfold call_in_place. destruct (objects w !! this) as [v|] eqn:Hv; [|done].
  specialize (Hm v). destruct (m v) as [v' r|v'|]; [| |done];
    apply storage_kept_base in Hm as [Hb Hc]; by apply (exclusive_same this v).
Qed.

Lemma exclusive_new this v a' w :
  exclusive w → fresh_storage (next_block w) a' v → exclusive (put this v a' w).
Proof.
  intros Hw [(-> & Hb & Hc)|(-> & Hb & Hc)].
  - apply exclusive_put; [done..| |].
    + by rewrite Hb, Hc.
    + intros b. by rewrite Hb.
  - by apply exclusive_fresh.
Qed.

Lemma Vector_sized_storage n a :
  match Vector_sized n a with
  | Returned a' v => fresh_storage a a' v
  | Thrown a' => a ≤ a' ≤ S a
  | Undefined => True
  end.
Proof.
  unfold Vector_sized. destruct (decide (n = 0)) as [->|Hn].
  - simpl. left. done.
  - rewrite RawMemory_new_pos by done.
    destruct (std_uninitialized_value_construct_n _ _ _); [|lia|done].
    right. split; [done|]. split; [done|]. cbn. lia.
Qed.

Lemma Vector_copy_storage o a :
  match Vector_copy o a with
  | Returned a' v => fresh_storage a a' v ∧ Capacity v = size_ o
  | Thrown a' => a ≤ a' ≤ S a
  | Undefined => True
  end.
Proof.
  unfold Vector_copy. destruct (decide (size_ o = 0)) as [Hn|Hn].
  - rewrite Hn. simpl. split; [by left|done].
  - rewrite RawMemory_new_pos by done.
    destruct (std_uninitialized_copy_n _ _ _ _ _); [|lia|done].
    split; [|done]. right. split; [done|]. split; [done|]. cbn. lia.
Qed.

(* exchanging the members of objects keeps their buffers apart *)
Lemma exclusive_rename (f : nat → nat) w w' :
  exclusive w → next_block w ≤ next_block w' →
  (∀ k k', f k = f k' → k = k') →
  (∀ k v', objects w' !! k = Some v' →
     ∃ v, objects w !! f k = Some v ∧ base_of v' = base_of v ∧ Capacity v' = Capacity v) →
  exclusive w'.
Proof.
  intros (Hlt & Hne & Hsh) Ha Hinj Hf. split; [|split].
  - intros id v' b Hid Hb. destruct (Hf _ _ Hid) as (v & Hv & Hbv & Hcv).
    rewrite Hbv in Hb. specialize (Hlt _ _ _ Hv Hb). lia.
  - intros i j vi vj b Hij Hi Hj Hb.
    destruct (Hf _ _ Hi) as (ui & Hui & Hbi & _). destruct (Hf _ _ Hj) as (uj & Huj & Hbj & _).
    rewrite Hbi in Hb. rewrite Hbj. apply (Hne (f i) (f j) ui uj b); [|done..].
    intros Heq. by apply Hij, Hinj.
  - intros id v' Hid. destruct (Hf _ _ Hid) as (v & Hv & -> & ->). by apply (Hsh (f id)).
Qed.

Lemma exclusive_swap i j t o w :
  exclusive w → i ≠ j → objects w !! i = Some t → objects w !! j = Some o →
  exclusive (put j t (next_block w) (put i o (next_block w) w)).
Proof.
  intros Hw Hij Hi Hj.
  apply (exclusive_rename (λ k, if decide (k = i) then j else if decide (k = j) then i else k) w);
    [done|done| |].
  - intros k k'. repeat case_decide; congruence.
  - intros k v'. destruct (decide (k = j)) as [->|Hkj].
    + rewrite lookup_put. intros [= <-]. exists t.
      by rewrite decide_False by done.
    + rewrite lookup_put_ne by done. destruct (decide (k = i)) as [->|Hki].
      * rewrite lookup_put. intros [= <-]. by exists o.
      * rewrite lookup_put_ne by done. intros Hk. by exists v'.
Qed.

Lemma exclusive_move this other o w :
  exclusive w → objects w !! this = None → objects w !! other = Some o →
  exclusive (put this o (next_block w) (put other Vector_default (next_block w) w)).
Proof.
  intros Hw Ht Ho. pose proof Hw as (Hlt & Hne & Hsh).
  assert (this ≠ other) as Hto by (intros ->; congruence).
  apply exclusive_put; [|done|by apply (Hsh other)|].
  - apply exclusive_put; [done..|]. intros b. done.
  - intros b Hb. split; [by eapply Hlt|]. intros j vj Hj.
    destruct (decide (other = j)) as [->|Hoj].
    + rewrite lookup_put. by intros [= <-].
    + rewrite lookup_put_ne by done. intros Hvj. by apply (Hne other j o vj b).
Qed.

Lemma assign_copy_exclusive this rhs w : exclusive w → keeps exclusive (assign_copy this rhs w).
Proof.
  intros Hw. unfold assign_copy.
  destruct (objects w !! this) as [t|] eqn:Ht; [|done].
  destruct (objects w !! rhs) as [r|] eqn:Hr; [|done].
  destruct (decide (this ≠ rhs)); [|done].
  destruct (capacity_ (data_ t) <? size_ r) eqn:Hcap.
  - apply Nat.ltb_lt in Hcap. pose proof (Vector_copy_storage r (next_block w)) as Hcopy.
    destruct (Vector_copy r (next_block w)) as [a rhs_copy| a|]; [| |done].
    + rewrite Swap_eq. destruct (Vector_destroy t); [|done].
      destruct Hcopy as [Hfresh Hc]. apply exclusive_new; [done|].
      destruct Hfresh as [(_ & _ & Hc0)|Hfresh]; [lia|by right].
    + apply exclusive_alloc; [done|]. cbn [keeps] in Hcopy. lia.
  - assert (∀ cs k, exclusive (put this {| data_ := with_slots (data_ t) cs; size_ := k |}
                                  (next_block w) w)) as Hsame.
    { intros cs k. apply (exclusive_same this t); [done..| |done].
      unfold base_of. by rewrite begin_with_slots. }
    destruct (size_ r <? size_ t).
    + destruct (std_copy_n _ _ _ _ _); [| |done]; [|apply Hsame].
      destruct (std_destroy_n _ _ _); [|done]. apply Hsame.
    + destruct (std_copy_n _ _ _ _ _); [| |done]; [|apply Hsame].
      destruct (std_uninitialized_copy_n _ _ _ _ _); [| |done]; apply Hsame.
Qed.

Lemma run_exclusive o w : exclusive w → keeps exclusive (run o w).
Proof.
  intros Hw. destruct o; cbn [run].
  - unfold new_default. destruct (objects w !! this); [done|].
    apply exclusive_new; [done|by left].
  - unfold new_sized. destruct (objects w !! this); [done|].
    pose proof (Vector_sized_storage size (next_block w)) as H.
    destruct (Vector_sized size (next_block w)); [| |done].
    + by apply exclusive_new.
    + apply exclusive_alloc; [done|]. cbn [keeps] in H. lia.
  - unfold new_copy. destruct (objects w !! this); [done|].
    destruct (objects w !! other) as [o|]; [|done].
    pose proof (Vector_copy_storage o (next_block w)) as H.
    destruct (Vector_copy o (next_block w)); [| |done].
    + apply exclusive_new; [done|apply H].
    + apply exclusive_alloc; [done|]. cbn [keeps] in H. lia.
  - unfold new_move. destruct (objects w !! this) eqn:Ht; [done|].
    destruct (objects w !! other) as [o|] eqn:Ho; [|done].
    rewrite Vector_move_eq. by apply exclusive_move.
  - unfold delete_object. destruct (objects w !! this) as [v|]; [|done].
    destruct (Vector_destroy v); [|done]. by apply exclusive_delete.
  - by apply assign_copy_exclusive.
  - unfold assign_move. destruct (objects w !! this) as [t|] eqn:Ht; [|done].
    destruct (objects w !! rhs) as [r|] eqn:Hr; [|done].
    destruct (decide (this ≠ rhs)); [|done]. rewrite Swap_eq. by apply exclusive_swap.
  - unfold swap_objects. destruct (objects w !! this) as [t|] eqn:Ht; [|done].
    destruct (objects w !! other) as [r|] eqn:Hr; [|done].
    destruct (decide (this = other)); [done|]. rewrite Swap_eq. by apply exclusive_swap.
  - apply call_exclusive; [done|]. intros v. apply Reserve_storage.
  - apply call_exclusive; [done|]. intros v. apply Resize_storage.
  - apply keeps_forget, call_exclusive; [done|]. intros v. apply EmplaceBack_storage.
  - apply call_exclusive; [done|]. intros v.
    apply (PushBack_forward_storage _ _ (by_copy value)).
  - apply call_exclusive; [done|]. intros v. apply PushBack_forward_storage.
  - apply call_in_place_exclusive; [done|]. apply PopBack_storage.
  - apply keeps_forget, call_exclusive; [done|]. intros v. apply Emplace_storage.
  - apply keeps_forget, call_in_place_exclusive; [done|]. intros v. apply Erase_storage.
  - apply call_in_place_exclusive; [done|]. intros v. apply assign_element_storage.
Qed.

Lemma exclusive_empty : exclusive (empty_world (T:=T)).
Proof. split; [|split]; intros *; cbn [objects empty_world]; by rewrite ?lookup_empty. Qed.

(** X14: in every world a program reaches from the empty one by the public
    operations (constructors, destructor, both assignments, Swap, Reserve,
    Resize, the appends, PopBack, Emplace, Insert, Erase and assignment to
    an element), whatever their arguments and whether they returned or
    exited by an exception, no two vector objects have the same buffer,
    every buffer is a block the allocator has handed out, and a vector has
    no buffer exactly when its capacity is 0. *)
Theorem buffers_exclusive allowed w : reachable_by allowed w → exclusive w.
Proof.
  induction 1 as [|o w w' _ IH _ Hrun|o w w' _ IH _ Hrun].
  - apply exclusive_empty.
  - pose proof (run_exclusive o w IH) as H. by rewrite Hrun in H.
  - pose proof (run_exclusive o w IH) as H. by rewrite Hrun in H.
Qed.

(** ** Further properties: Swap and assignment *)

Lemma put_put_restore this other t o (w : World (T:=T)) :
  objects w !! this = Some t → objects w !! other = Some o →
  put other o (next_block w)
    (put this t (next_block w) (put other t (next_block w) (put this o (next_block w) w)))
  = w.
Proof.
  intros Ht Ho. destruct w as [a m]. unfold put. cbn [next_block objects] in *. f_equal.
  apply map_eq. intros k. destruct (decide (other = k)) as [<-|Hok].
  { by rewrite lookup_insert_eq. }
  rewrite lookup_insert_ne by done. destruct (decide (this = k)) as [<-|Htk].
  { by rewrite lookup_insert_eq. }
  by rewrite !lookup_insert_ne by done.
Qed.

Lemma put_put_commute this other t o a (w : World (T:=T)) :
  this ≠ other → put this o a (put other t a w) = put other t a (put this o a w).
Proof. intros Hne. unfold put. cbn [next_block objects]. f_equal. by apply insert_insert_ne. Qed.

(** X15: move assignment is Swap, also on the same object, where both do
    nothing.  Swap never exits by an exception; it exchanges the members of
    the two objects, leaves every other object and the allocator as they
    were, does the same with the two objects in the other order, and a
    second Swap restores the program state exactly. *)
Theorem Swap_laws this other w :
  assign_move this other w = swap_objects this other w
  ∧ (∀ w', swap_objects this other w ≠ Thrown w')
  ∧ ∀ w', swap_objects this other w = Returned w' tt →
      next_block w' = next_block w
      ∧ objects w' !! this = objects w !! other
      ∧ objects w' !! other = objects w !! this
      ∧ (∀ id, id ≠ this → id ≠ other → objects w' !! id = objects w !! id)
      ∧ swap_objects other this w = Returned w' tt
      ∧ swap_objects this other w' = Returned w tt.
Proof.
  unfold assign_move. unfold swap_objects at 1 2 3.
  destruct (objects w !! this) as [t|] eqn:Ht; [|done].
  destruct (objects w !! other) as [o|] eqn:Ho; [|done].
  destruct (decide (this = other)) as [->|Hne].
  { split; [by destruct (decide (other ≠ other))|]. split; [done|].
    intros w' [= <-].
    assert (swap_objects other other w = Returned w tt) as Hs
      by (unfold swap_objects; rewrite Ht; by rewrite decide_True).
    done. }
  rewrite Swap_eq. split; [by rewrite decide_True|]. split; [done|].
  intros w' [= <-]. split; [done|]. split; [by rewrite lookup_put_ne, lookup_put|].
  split; [by rewrite lookup_put|].
  split; [intros id H1 H2; by rewrite !lookup_put_ne|].
  unfold swap_objects. rewrite Ho, Ht, lookup_put, lookup_put_ne, lookup_put by done.
  rewrite !decide_False by done. rewrite !Swap_eq. cbn [next_block put].
  split; [by rewrite put_put_commute|]. f_equal.
  by apply (put_put_restore this other t o w).
Qed.

(** X16: copy assignment from another vector whose size fits the capacity
    of the destination allocates nothing and keeps buffer and capacity of
    the destination, whether the element copies succeed or one of them
    throws; it writes to no other object. *)
Theorem assign_copy_reuses_storage this rhs w t r :
  objects w !! this = Some t → objects w !! rhs = Some r → this ≠ rhs →
  size_ r ≤ Capacity t →
  keeps (λ w', next_block w' = next_block w
               ∧ (∃ t', objects w' !! this = Some t' ∧ storage_kept t t')
               ∧ ∀ id, id ≠ this → objects w' !! id = objects w !! id)
    (assign_copy this rhs w).
Proof.
  intros Ht Hr Hne Hfit. unfold assign_copy. rewrite Ht, Hr.
  rewrite decide_True by done. fold (Capacity t).
  destruct (Nat.ltb_spec (Capacity t) (size_ r)) as [?|_]; [lia|].
  assert (∀ cs k, (λ w', next_block w' = next_block w
               ∧ (∃ t', objects w' !! this = Some t' ∧ storage_kept t t')
               ∧ ∀ id, id ≠ this → objects w' !! id = objects w !! id)
            (put this {| data_ := with_slots (data_ t) cs; size_ := k |} (next_block w) w))
    as Hput.
  { intros cs k. split; [done|]. split.
    - eexists. split; [apply lookup_put|apply storage_kept_with_slots].
    - intros id Hid. by rewrite lookup_put_ne. }
  destruct (size_ r <? size_ t).
  - destruct (std_copy_n _ _ _ _ _); [| |done]; [|apply Hput].
    destruct (std_destroy_n _ _ _); [|done]. apply Hput.
  - destruct (std_copy_n _ _ _ _ _); [| |done]; [|apply Hput].
    destruct (std_uninitialized_copy_n _ _ _ _ _); [| |done]; apply Hput.
Qed.

(** ** Further properties: failures inside Emplace and Erase *)

(** X17: when the constructor of the new element throws, Emplace (and so
    Insert) at any valid position, the end included, exits by that
    exception and leaves the vector exactly as it was; a full vector has
    allocated one block by then, a vector with spare capacity none. *)
Theorem Emplace_construct_throw a v xs p args :
  holds v xs → p ≤ length xs → construct_from args = None →
  Emplace a v (ptr_add (begin v) p) args
  = Thrown (if Size v <? Capacity v then a else S a, v).
Proof.
  intros Hv Hp Hc. destruct (holds_cases _ _ Hv) as (b & cap & -> & Hwf & _ & _).
  rewrite ptr_add_begin_vec. change (Size (vec b cap xs)) with (length xs).
  change (Capacity (vec b cap xs)) with cap.
  destruct (decide (p = length xs)) as [->|Hne].
  - rewrite Emplace_end, EmplaceBack_vec, PushBack_forward_vec by done. by rewrite Hc.
  - rewrite Emplace_inner by lia. destruct (length xs <? cap).
    + by rewrite emplace_in_place_throw.
    + rewrite emplace_realloc_throw by done. change (size_ (vec b cap xs)) with (length xs).
      rewrite RawMemory_new_pos; [done|]. destruct (length xs); simpl; lia.
Qed.

(** X18: when a move assignment throws while Erase closes the gap, Erase
    exits by the exception with the size, the buffer and the capacity
    unchanged: no element has been destroyed, the elements before the
    position are untouched, and from the position on the vector holds what
    the assignments done so far have left. *)
Theorem Erase_throw v xs p d :
  holds v xs → xs !! p = Some d → snd (shift_left d (drop (S p) xs)) = false →
  ∃ v',
    Erase v (ptr_add (begin v) p) = Thrown v'
    ∧ holds v' (take p xs ++ fst (shift_left d (drop (S p) xs)))
    ∧ Size v' = Size v ∧ storage_kept v v'.
Proof.
  intros Hv Hd Hthrow. destruct (holds_cases _ _ Hv) as (b & cap & -> & Hwf & _ & _).
  pose proof (lookup_lt_Some _ _ _ Hd) as Hp.
  pose proof (take_drop_middle _ _ _ Hd) as Hxs.
  rewrite ptr_add_begin_vec.
  rewrite (Erase_vec_at b cap xs (take p xs) d (drop (S p) xs) p);
    [|done|by rewrite length_take_le by lia|done].
  rewrite Hthrow.
  assert (length (take p xs ++ fst (shift_left d (drop (S p) xs))) = length xs) as Hlen.
  { rewrite length_app, shift_left_length, length_take_le, length_drop by lia. lia. }
  eexists. split; [done|]. split; [|split].
  - apply holds_vec. destruct Hwf as [Hle Hb]. split; [lia|done].
  - unfold Size, vec. cbn [size_]. done.
  - split; [by rewrite !begin_vec|done].
Qed.

End Facts.

(** * The theorems at sample inputs *)

Lemma holds_sample b cap (xs : list nat) :
  (length xs <=? cap) = true → holds (vec (Some b) cap xs) xs.
Proof.
  intros H%Nat.leb_le. apply (holds_vec (E:=plain)). by split.
Qed.

Lemma append_strong_guarantee_witness :
  holds v2_13 [2; 13]
  ∧ size_ v2_13 = Capacity v2_13
  ∧ copy_all (E:=fragile) [2; 13] = None
  ∧ ∃ a',
      EmplaceBack (E:=fragile) 2 v2_13 copy_of_9 = Thrown (a', v2_13)
      ∧ PushBack_forward (E:=fragile) 2 v2_13 copy_of_9 = Thrown (a', v2_13)
      ∧ PushBack (E:=fragile) 2 v2_13 9 = Thrown (a', v2_13).
Proof.
  split; [by apply holds_sample|]. split; [reflexivity|]. split; [reflexivity|].
  destruct (append_strong_guarantee (E:=fragile) 2 v2_13 [2; 13] copy_of_9)
    as (a' & Hemplace & Hforward & Hpush);
    [reflexivity|reflexivity|by apply holds_sample|reflexivity|right; reflexivity|].
  exists a'. split; [exact Hemplace|]. split; [exact Hforward|].
  apply Hpush. reflexivity.
Defined.

Lemma append_growth_witness :
  append_run (E:=plain) [by_args 1; by_args 2; by_args 3; by_args 4; by_args 5] 0
    Vector_default = Some [0; 1; 2; 4; 4; 8]
  ∧ holds v123 [1; 2; 3]
  ∧ [0; 1; 2; 4; 4; 8] = growth <$> seq 0 6
  ∧ match EmplaceBack (E:=plain) 3 v123 (by_args 4) with
    | Returned (a', v') _ => append_effect v123 3 a' v'
    | _ => True
    end
  ∧ match PushBack (E:=plain) 3 v123 4 with
    | Returned (a', v') _ => append_effect v123 3 a' v'
    | _ => True
    end
  ∧ match PushBack_forward (E:=plain) 3 v123 (by_args 4) with
    | Returned (a', v') _ => append_effect v123 3 a' v'
    | _ => True
    end.
Proof.
  split; [reflexivity|]. split; [by apply holds_sample|].
  apply (append_growth (E:=plain)
           [by_args 1; by_args 2; by_args 3; by_args 4; by_args 5]
           [0; 1; 2; 4; 4; 8] 3 v123 [1; 2; 3] (by_args 4) 4);
    [reflexivity|by apply holds_sample].
Defined.

Lemma plain_regular (x : nat) : regular (E:=plain) x.
Proof.
  split; [reflexivity|]. split; [reflexivity|]. split; [by intros d|].
  intros d. by exists 0.
Qed.

Lemma Emplace_inserts_witness :
  holds v1234 [1; 2; 3; 4]
  ∧ 2 ≤ length [1; 2; 3; 4]
  ∧ construct_from (E:=plain) copy_of_9 = Some 9
  ∧ ∃ a' v' it,
      Emplace (E:=plain) 3 v1234 (ptr_add (begin v1234) 2) copy_of_9 = Returned (a', v') it
      ∧ holds v' [1; 2; 9; 3; 4]
      ∧ size_ v' = 5
      ∧ (∀ value, copy_of_9 = by_copy value →
           Insert (E:=plain) 3 v1234 (ptr_add (begin v1234) 2) value = Returned (a', v') it)
      ∧ (∀ value, copy_of_9 = by_move value →
           Insert_move (E:=plain) 3 v1234 (ptr_add (begin v1234) 2) value
           = Returned (a', v') it).
Proof.
  split; [by apply holds_sample|]. split; [simpl; lia|]. split; [reflexivity|].
  apply (Emplace_inserts (E:=plain) 3 v1234 [1; 2; 3; 4] 2 copy_of_9 9);
    [by apply holds_sample|simpl; lia|reflexivity| |].
  - intros d. by exists 0.
  - repeat constructor; apply plain_regular.
Defined.

Lemma Erase_removes_witness :
  holds v123 [1; 2; 3]
  ∧ 1 < length [1; 2; 3]
  ∧ ∃ d r v' it,
      [1; 2; 3] !! 1 = Some d
      ∧ shift_left (E:=plain) d [3] = ([3; r], true)
      ∧ Erase (E:=plain) v123 (ptr_add (begin v123) 1) = Returned v' it
      ∧ holds v' [1; 3]
      ∧ S (size_ v') = 3
      ∧ Capacity v' = 4.
Proof.
  split; [by apply holds_sample|]. split; [simpl; lia|].
  apply (Erase_removes (E:=plain) v123 [1; 2; 3] 1);
    [by apply holds_sample|simpl; lia|].
  repeat constructor. intros d. by exists 0.
Defined.

(** C8 as stated fails: erasing position 1 of [1; 2; 3] does not give
    [2; 3]. *)
Lemma Erase_position_1_counterexample :
  ¬ (∀ (v : Vector (T:=nat)) (a b c : nat),
       holds v [a; b; c] →
       ∃ v' it, Erase (E:=plain) v (ptr_add (begin v) 1) = Returned v' it
                ∧ holds v' [b; c] ∧ size_ v' = 2).
Proof.
  intros H.
  destruct (H v123 1 2 3) as (v' & it & HE & (Hs & _) & _); [by apply holds_sample|].
  vm_compute in HE. injection HE as <- _. vm_compute in Hs. discriminate Hs.
Qed.

Lemma Resize_round_trip_witness :
  holds v123 [1; 2; 3]
  ∧ value_construct (Element:=plain) = Some 0
  ∧ Resize (E:=plain) 3 v123 (size_ v123) = Returned (3, v123) tt
  ∧ (∃ v1 v2,
       Resize (E:=plain) 3 v123 1 = Returned (3, v1) tt
       ∧ Resize (E:=plain) 3 v1 3 = Returned (3, v2) tt
       ∧ size_ v2 = 3
       ∧ holds v2 [1; 0; 0])
  ∧ Resize (E:=plain) 3 v123 6 = Returned (4, vec (Some 3) 6 [1; 2; 3; 0; 0; 0]) tt
  ∧ ∃ v2,
      Resize (E:=plain) 4 (vec (Some 3) 6 [1; 2; 3; 0; 0; 0]) 3 = Returned (4, v2) tt
      ∧ size_ v2 = 3
      ∧ holds v2 [1; 2; 3].
Proof.
  split; [by apply holds_sample|]. split; [reflexivity|].
  destruct (Resize_round_trip (E:=plain) 3 v123 [1; 2; 3] 1 0) as (Hsame & Hin & _);
    [by apply holds_sample|reflexivity|].
  destruct (Resize_round_trip (E:=plain) 3 v123 [1; 2; 3] 6 0) as (_ & _ & Hout);
    [by apply holds_sample|reflexivity|].
  split; [exact Hsame|]. split; [apply Hin; cbv; lia|]. split; [reflexivity|].
  apply (Hout (Forall_cons_2 _ _ _ (plain_regular 1)
                 (Forall_cons_2 _ _ _ (plain_regular 2)
                    (Forall_cons_2 _ _ _ (plain_regular 3) (Forall_nil_2 _))))
              4 (vec (Some 3) 6 [1; 2; 3; 0; 0; 0])).
  reflexivity.
Defined.

Lemma returned_positions_witness :
  holds v123 [1; 2; 3]
  ∧ 1 ≤ length [1; 2; 3]
  ∧ construct_from (E:=plain) args_9 = Some 9
  ∧ (∃ a' v',
       Emplace (E:=plain) 3 v123 (ptr_add (begin v123) 1) args_9
       = Returned (a', v') (ptr_add (begin v') 1)
       ∧ deref v' (ptr_add (begin v') 1) = Some 9)
  ∧ (∃ a' v',
       EmplaceBack (E:=plain) 3 v123 args_9 = Returned (a', v') (ptr_add (begin v') 3)
       ∧ deref v' (ptr_add (begin v') 3) = Some 9)
  ∧ match Erase (E:=plain) v123 (ptr_add (begin v123) 1) with
    | Returned v' it => it = ptr_add (begin v') 1 ∧ deref v' it = Some 3
    | Thrown _ => False
    | Undefined => 1 = 3
    end.
Proof.
  split; [by apply holds_sample|]. split; [simpl; lia|]. split; [reflexivity|].
  apply (returned_positions (E:=plain) 3 v123 [1; 2; 3] 1 args_9 9);
    [by apply holds_sample|simpl; lia|reflexivity| |].
  - intros d. by exists 0.
  - repeat constructor; apply plain_regular.
Defined.

Lemma move_semantics_witness :
  objects (two_vectors v123 v78) !! 0 = Some v123
  ∧ 2 ≠ 0 ∧ 1 ≠ 0
  ∧ (∃ w' o',
       new_move 2 0 (two_vectors v123 v78) = Returned w' tt
       ∧ objects w' !! 2 = Some v123
       ∧ objects w' !! 0 = Some o'
       ∧ size_ o' = 0 ∧ Capacity o' = 0 ∧ buffer_ (data_ o') = None)
  ∧ (∃ w',
       assign_move 1 0 (two_vectors v123 v78) = Returned w' tt
       ∧ objects w' !! 1 = Some v123
       ∧ objects w' !! 0 = Some v78)
  ∧ ∀ (w0 : World (T:=nat)) i j s,
      new_move i j w0 ≠ Thrown s ∧ assign_move i j w0 ≠ Thrown s.
Proof.
  split; [reflexivity|]. split; [lia|]. split; [lia|].
  destruct (move_semantics (E:=plain) (two_vectors v123 v78) 2 0 v123)
    as [Hconstruct Hnothrow]; [reflexivity|lia|].
  destruct (move_semantics (E:=plain) (two_vectors v123 v78) 1 0 v123)
    as [Hassign _]; [reflexivity|lia|].
  split; [exact Hconstruct|]. split; [exact Hassign|exact Hnothrow].
Defined.

Lemma fragile_regular (x : nat) : x ≠ 13 → regular (E:=fragile) x.
Proof.
  intros Hx%Nat.eqb_neq. unfold regular, copyable, movable, copy_assignable, move_assignable.
  simpl. rewrite Hx. split; [done|]. split; [done|]. split; [done|].
  intros d. by exists 0.
Qed.

Lemma copy_assignment_witness :
  (objects (two_vectors v2_13 v123) !! 0 = Some v2_13
   ∧ objects (two_vectors v2_13 v123) !! 1 = Some v123
   ∧ 0 ≠ 1 ∧ holds v2_13 [2; 13] ∧ holds v123 [1; 2; 3]
   ∧ ∃ w' t',
       assign_copy (E:=fragile) 0 1 (two_vectors v2_13 v123) = Returned w' tt
       ∧ objects w' !! 0 = Some t' ∧ holds t' [1; 2; 3] ∧ size_ t' = size_ v123
       ∧ objects w' !! 1 = Some v123)
  ∧ (Capacity v2_13 < size_ v1_13_3
     ∧ copy_all (E:=fragile) [1; 13; 3] = None
     ∧ assign_copy (E:=fragile) 0 0 (two_vectors v2_13 v1_13_3)
       = Returned (two_vectors v2_13 v1_13_3) tt
     ∧ ∃ w',
         assign_copy (E:=fragile) 0 1 (two_vectors v2_13 v1_13_3) = Thrown w'
         ∧ objects w' = objects (two_vectors v2_13 v1_13_3)).
Proof.
  split.
  - split; [reflexivity|]. split; [reflexivity|]. split; [lia|].
    split; [by apply holds_sample|]. split; [by apply holds_sample|].
    apply (copy_assignment (E:=fragile) (two_vectors v2_13 v123) 0 1 v2_13 v123
             [2; 13] [1; 2; 3]);
      [reflexivity|reflexivity|lia|by apply holds_sample..|].
    repeat constructor; by apply fragile_regular.
  - split; [cbv; lia|]. split; [reflexivity|].
    destruct (copy_assignment (E:=fragile) (two_vectors v2_13 v1_13_3) 0 1 v2_13 v1_13_3
                [2; 13] [1; 13; 3]) as (_ & Hself & Hthrow);
      [reflexivity|reflexivity|lia|by apply holds_sample..|].
    split; [exact Hself|].
    apply Hthrow; [cbv; lia|reflexivity].
Defined.

(** C1: Emplace before the end of the full vector [2; 13], with an element
    type whose copy constructor throws on 13.  The copy of the suffix
    throws; the handler destroys what the new buffer holds and the
    function goes on: it adopts the new buffer, counts three elements and
    returns an iterator, and no exception reaches the caller. *)
Theorem Emplace_swallows_copy_failure :
  copy_construct (Element:=fragile) 13 = None
  ∧ forget (EmplaceBack (E:=fragile) 0 Vector_default (by_args 2))
    = Returned (1, vec (Some 0) 1 [2]) tt
  ∧ forget (EmplaceBack (E:=fragile) 1 (vec (Some 0) 1 [2]) (by_args 13))
    = Returned (2, v2_13) tt
  ∧ Emplace (E:=fragile) 2 v2_13 (ptr_add (begin v2_13) 1) args_9
    = Returned (3, v_hollow) {| block_of := Some 2; offset := 1 |}
  ∧ elements v_hollow = None
  ∧ ¬ invariant v_hollow.
Proof.
  split; [reflexivity|]. split; [reflexivity|]. split; [reflexivity|].
  split; [reflexivity|]. split; [reflexivity|].
  intros (_ & _ & Hlive & _). destruct (Hlive 0) as [x Hx]; [simpl; lia|].
  discriminate Hx.
Qed.




(** ** The further properties at sample inputs *)

Lemma Reserve_keeps_elements_witness :
  holds v123 [1; 2; 3] ∧ Forall (regular (E:=plain)) [1; 2; 3]
  ∧ Reserve (E:=plain) 3 v123 4 = Returned (3, v123) tt
  ∧ Reserve (E:=plain) 3 v123 10 = Returned (4, vec (Some 3) 10 [1; 2; 3]) tt
  ∧ ∀ a' v',
      Reserve (E:=plain) 3 v123 10 = Returned (a', v') tt →
      elements v' = Some [1; 2; 3] ∧ Size v' = Size v123
      ∧ Capacity v' = 10 `max` Capacity v123
      ∧ (Capacity v123 < 10 → a' = 4 ∧ begin v' = {| block_of := Some 3; offset := 0 |}).
Proof.
  split; [by apply holds_sample|].
  split; [repeat constructor; apply plain_regular|].
  destruct (Reserve_keeps_elements (E:=plain) 3 v123 [1; 2; 3] 4) as [Hin _];
    [by apply holds_sample|repeat constructor; apply plain_regular|].
  destruct (Reserve_keeps_elements (E:=plain) 3 v123 [1; 2; 3] 10) as [_ Hout];
    [by apply holds_sample|repeat constructor; apply plain_regular|].
  split; [apply Hin; cbv; lia|]. split; [reflexivity|]. exact Hout.
Defined.


Lemma Vector_sized_spec_witness :
  Vector_sized (E:=no_default) 0 3 = Returned 3 Vector_default
  ∧ Vector_sized (E:=no_default) 2 3 = Thrown 4
  ∧ Vector_sized (E:=plain) 2 3 = Returned 4 (vec (Some 3) 2 [0; 0])
  ∧ match Vector_sized (E:=plain) 2 3 with
    | Returned a' v =>
      Size v = 2 ∧ Capacity v = 2
      ∧ (2 = 0 → a' = 3 ∧ v = Vector_default)
      ∧ (0 < 2 →
           a' = 4 ∧ begin v = {| block_of := Some 3; offset := 0 |}
           ∧ ∃ d, value_construct (Element:=plain) = Some d ∧ holds v (replicate 2 d))
    | Thrown _ => 0 < 2
    | Undefined => True
    end.
Proof.
  split; [apply (Vector_sized_spec (E:=no_default) 0 3)|].
  split; [reflexivity|]. split; [reflexivity|].
  apply (Vector_sized_spec (E:=plain) 2 3).
Defined.

Lemma Vector_copy_spec_witness :
  holds v123 [1; 2; 3]
  ∧ match Vector_copy (E:=plain) v123 3 with
    | Returned a' v =>
      ∃ ys, copy_all (E:=plain) [1; 2; 3] = Some ys ∧ holds v ys ∧ Capacity v = Size v123
            ∧ (Forall (copyable (E:=plain)) [1; 2; 3] → ys = [1; 2; 3])
            ∧ ([1; 2; 3] = [] → a' = 3 ∧ v = Vector_default)
            ∧ ([1; 2; 3] ≠ [] → a' = 4 ∧ begin v = {| block_of := Some 3; offset := 0 |})
    | Thrown a' => copy_all (E:=plain) [1; 2; 3] = None ∧ a' = 4
    | Undefined => False
    end.
Proof.
  split; [by apply holds_sample|].
  apply (Vector_copy_spec (E:=plain) v123 [1; 2; 3] 3). by apply holds_sample.
Defined.

Lemma PopBack_spec_witness :
  holds v123 [1; 2; 3]
  ∧ match PopBack v123 with
    | Returned v' _ =>
      holds v' (take (length [1; 2; 3] - 1) [1; 2; 3]) ∧ S (Size v') = Size v123
      ∧ Capacity v' = Capacity v123 ∧ begin v' = begin v123
    | Thrown _ => False
    | Undefined => [1; 2; 3] = []
    end
  ∧ ∀ (u : Vector (T:=nat)) s, PopBack u ≠ Thrown s.
Proof.
  split; [by apply holds_sample|].
  apply (PopBack_spec (E:=plain) v123 [1; 2; 3]). by apply holds_sample.
Defined.

Lemma append_then_pop_witness :
  holds v123 [1; 2; 3] ∧ construct_from (E:=plain) args_9 = Some 9
  ∧ Forall (regular (E:=plain)) [1; 2; 3]
  ∧ ∃ a' v' r v'',
      EmplaceBack (E:=plain) 3 v123 args_9 = Returned (a', v') r
      ∧ holds v' ([1; 2; 3] ++ [9])
      ∧ PopBack v' = Returned v'' tt
      ∧ holds v'' [1; 2; 3]
      ∧ (Size v123 < Capacity v123 → v'' = v123).
Proof.
  split; [by apply holds_sample|]. split; [reflexivity|].
  split; [repeat constructor; apply plain_regular|].
  apply (append_then_pop (E:=plain) 3 v123 [1; 2; 3] args_9 9);
    [by apply holds_sample|reflexivity|].
  repeat constructor; apply plain_regular.
Defined.

Lemma Emplace_then_Erase_witness :
  holds v1234 [1; 2; 3; 4] ∧ 2 ≤ length [1; 2; 3; 4]
  ∧ construct_from (E:=plain) copy_of_9 = Some 9
  ∧ move_assignable (E:=plain) 9 ∧ Forall (regular (E:=plain)) [1; 2; 3; 4]
  ∧ ∃ a' v' it v'' it',
      Emplace (E:=plain) 3 v1234 (ptr_add (begin v1234) 2) copy_of_9 = Returned (a', v') it
      ∧ holds v' (take 2 [1; 2; 3; 4] ++ 9 :: drop 2 [1; 2; 3; 4])
      ∧ Erase (E:=plain) v' it = Returned v'' it'
      ∧ holds v'' [1; 2; 3; 4].
Proof.
  split; [by apply holds_sample|]. split; [simpl; lia|]. split; [reflexivity|].
  split; [intros d; by exists 0|].
  split; [repeat constructor; apply plain_regular|].
  apply (Emplace_then_Erase (E:=plain) 3 v1234 [1; 2; 3; 4] 2 copy_of_9 9);
    [by apply holds_sample|simpl; lia|reflexivity| |].
  - intros d. by exists 0.
  - repeat constructor; apply plain_regular.
Defined.


Lemma buffers_exclusive_witness :
  reachable_by (E:=plain) (λ _ _, True) original_and_copy
  ∧ exclusive original_and_copy.
Proof.
  assert (reachable_by (E:=plain) (λ _ _, True) original_and_copy) as Hreach.
  { apply (reachable_return _ (OpCopy 1 0) (one_vector 1 (vec (Some 0) 1 [1])));
      [|done|by vm_compute].
    apply (reachable_return _ (OpEmplaceBack 0 (by_args 1)) (one_vector 0 Vector_default));
      [|done|by vm_compute].
    apply (reachable_return _ (OpDefault 0) empty_world); [|done|by vm_compute].
    apply reachable_start. }
  split; [exact Hreach|].
  apply (buffers_exclusive (E:=plain) (λ _ _, True) original_and_copy).
  exact Hreach.
Defined.

Lemma assign_copy_reuses_storage_witness :
  objects (two_vectors v123 v78) !! 0 = Some v123
  ∧ objects (two_vectors v123 v78) !! 1 = Some v78
  ∧ 0 ≠ 1 ∧ size_ v78 ≤ Capacity v123
  ∧ keeps (λ w', next_block w' = next_block (two_vectors v123 v78)
               ∧ (∃ t', objects w' !! 0 = Some t' ∧ storage_kept v123 t')
               ∧ ∀ id, id ≠ 0 → objects w' !! id = objects (two_vectors v123 v78) !! id)
      (assign_copy (E:=plain) 0 1 (two_vectors v123 v78)).
Proof.
  split; [reflexivity|]. split; [reflexivity|]. split; [lia|]. split; [cbv; lia|].
  apply (assign_copy_reuses_storage (E:=plain) 0 1 (two_vectors v123 v78) v123 v78);
    [reflexivity|reflexivity|lia|cbv; lia].
Defined.


Lemma Emplace_construct_throw_witness :
  holds v123 [1; 2; 3] ∧ 1 ≤ length [1; 2; 3]
  ∧ construct_from (E:=fragile) copy_of_13 = None
  ∧ Emplace (E:=fragile) 3 v123 (ptr_add (begin v123) 1) copy_of_13
    = Thrown (if Size v123 <? Capacity v123 then 3 else 4, v123).
Proof.
  split; [by apply holds_sample|]. split; [simpl; lia|]. split; [reflexivity|].
  apply (Emplace_construct_throw (E:=fragile) 3 v123 [1; 2; 3] 1 copy_of_13);
    [by apply holds_sample|simpl; lia|reflexivity].
Defined.

Lemma Erase_throw_witness :
  holds v1_2_13 [1; 2; 13] ∧ [1; 2; 13] !! 0 = Some 1
  ∧ snd (shift_left (E:=touchy) 1 (drop 1 [1; 2; 13])) = false
  ∧ ∃ v',
      Erase (E:=touchy) v1_2_13 (ptr_add (begin v1_2_13) 0) = Thrown v'
      ∧ holds v' (take 0 [1; 2; 13] ++ fst (shift_left (E:=touchy) 1 (drop 1 [1; 2; 13])))
      ∧ Size v' = Size v1_2_13 ∧ storage_kept v1_2_13 v'.
Proof.
  split; [by apply holds_sample|]. split; [reflexivity|]. split; [reflexivity|].
  apply (Erase_throw (E:=touchy) v1_2_13 [1; 2; 13] 0 1);
    [by apply holds_sample|reflexivity|reflexivity].
Defined.
